(** * A minimal dependency-injection container (src/index.ts)

    A shallow embedding of [DIContainer] and [ConstructionError], and the
    properties of the resolution and caching algorithm.

    The container stores arbitrary JavaScript values under arbitrary
    JavaScript keys, calls back into code supplied by its user (provider
    functions, the static [dependencies] method, class constructors) and
    signals failure with exceptions.  The embedding therefore has

    - a type [JsVal] of JavaScript values with decidable identity,
    - an [objects] table that describes the objects of the host program,
    - a heap of the objects allocated while the container runs,
    - a monad [M] of state, exceptions and fuel.

    Numbers and bigints are left out of [JsVal] (floating point); getters,
    proxies, objects without a prototype and prototype tampering are not
    modelled: a property read is a plain lookup, a [name] that is defined is
    a string, and every object has a [toString].  Host code is described by
    its outcome: a provider, a [dependencies] method or a constructor
    completes in the same way whenever it is called (a constructor: with the
    same arguments), and does not call back into the container.  A
    constructor that completes returns the object under construction: one
    that returns another object instead is not modelled.  The call stack is
    unbounded: fuel bounds the depth of the recursion of one run, and the
    engine's stack-overflow error is not modelled. *)

From stdpp Require Import gmap strings list fin_maps.

(** String literals are JavaScript strings; [+:+] appends strings, [++]
    lists. *)
Open Scope string_scope.
Open Scope list_scope.
Open Scope nat_scope.
Open Scope stdpp_scope.

(** ** Values *)

(** [VObj id] is an object that the host program created (a class, a
    function, an object literal, an [Error]); [objects id] describes it.
    [VLoc a] is an object allocated while the container ran (an instance
    made by [new], a [ConstructionError], a [TypeError]); the heap describes
    it.  Two values are the same key of a [Map] iff they are equal. *)
Inductive JsVal : Type :=
| VUndefined
| VNull
| VBool (b : bool)
| VStr (s : string)
| VSymbol (id : nat) (description : option string)
| VObj (id : nat)
| VLoc (addr : nat).

#[global] Instance JsVal_eq_dec : EqDecision JsVal.
Proof. solve_decision. Defined.

#[global] Instance JsVal_countable : Countable JsVal.
Proof.
  refine (inj_countable'
    (λ v, match v with
          | VUndefined => inl (inl 0)
          | VNull => inl (inl 1)
          | VBool b => inl (inr b)
          | VStr s => inr (inl s)
          | VSymbol id d => inr (inr (inl (id, d)))
          | VObj id => inr (inr (inr (inl id)))
          | VLoc a => inr (inr (inr (inr a)))
          end)
    (λ c, match c with
          | inl (inl 0) => VUndefined
          | inl (inl _) => VNull
          | inl (inr b) => VBool b
          | inr (inl s) => VStr s
          | inr (inr (inl (id, d))) => VSymbol id d
          | inr (inr (inr (inl id))) => VObj id
          | inr (inr (inr (inr a))) => VLoc a
          end) _).
  by intros [].
Defined.

(** The outcome of running a piece of JavaScript: a value, or a thrown
    value. *)
Inductive Completion (A : Type) : Type :=
| Normal (a : A)
| Throw (e : JsVal).
Arguments Normal {A} a.
Arguments Throw {A} e.

#[global] Instance Completion_eq_dec `{EqDecision A} : EqDecision (Completion A).
Proof. solve_decision. Defined.

(** ** The host program *)

(** What the container can observe of a host object [x]:
    - [obj_name]: [x.name], [None] when it is [undefined];
    - [obj_toString]: the string [x.toString()] returns;
    - [obj_dependencies]: [None] when [x.dependencies] is absent, otherwise
      the outcome of calling [x.dependencies()];
    - [obj_construct]: [None] when [x] is not a constructor, otherwise the
      outcome of the constructor body on its arguments ([Normal tt]: the
      new object is returned). *)
Record ObjDesc : Type := mkObjDesc {
  obj_name : option string;
  obj_toString : string;
  obj_dependencies : option (Completion (list JsVal));
  obj_construct : option (list JsVal → Completion unit);
}.

(** [interface Injectable { new (...xs): any; dependencies?: () => Array<any> }]:
    a class, with its name, its optional static [dependencies] and its
    constructor.  [toString()] of a class gives its source text; the text
    chosen here is immaterial, a class has a [name]. *)
Definition Injectable (name : string)
    (dependencies : option (Completion (list JsVal)))
    (constructor : list JsVal → Completion unit) : ObjDesc :=
  {| obj_name := Some name;
     obj_toString := "class " +:+ name +:+ " {}";
     obj_dependencies := dependencies;
     obj_construct := Some constructor |}.

(** The object literal [{}]. *)
Definition plain_object : ObjDesc :=
  {| obj_name := None;
     obj_toString := "[object Object]";
     obj_dependencies := None;
     obj_construct := None |}.

(** A provider: a function [() => any], with its identity and the outcome
    of calling it. *)
Record Provider : Type := mkProvider {
  fn_id : nat;
  fn_call : Completion JsVal;
}.

#[global] Instance Provider_eq_dec : EqDecision Provider.
Proof. solve_decision. Defined.

(** ** The heap and the call log *)

Inductive HeapObj : Type :=
| HInstance (cls : JsVal) (args : list JsVal)
| HConstructionError (message : string) (cause : JsVal)
| HTypeError (message : string).

#[global] Instance HeapObj_eq_dec : EqDecision HeapObj.
Proof. solve_decision. Defined.

(** The calls the container makes into the host program, in order.  The log
    is specification state: the container never reads it. *)
Inductive Event : Type :=
| ECallProvider (key : JsVal) (fn : Provider)
| ECallDependencies (object : JsVal)
| ENew (object : JsVal) (args : list JsVal) (result : Completion JsVal).

#[global] Instance Event_eq_dec : EqDecision Event.
Proof. solve_decision. Defined.

(** ** The container *)

(** [class DIContainer { private instances: Map<any, any>;
                         private providers: Map<any, () => any>; }] *)
Record DIContainer : Type := mkDIContainer {
  instances : gmap JsVal JsVal;
  providers : gmap JsVal Provider;
}.

(** [constructor() { this.instances = new Map(); this.providers = new Map(); }] *)
Definition new_DIContainer : DIContainer :=
  {| instances := ∅; providers := ∅ |}.

(** [add(key, value) { this.instances.set(key, value); return this; }] *)
Definition add (key value : JsVal) (this : DIContainer) : DIContainer :=
  {| instances := <[key := value]> (instances this);
     providers := providers this |}.

(** [provide(key, value) { this.providers.set(key, value); return this; }] *)
Definition provide (key : JsVal) (value : Provider) (this : DIContainer)
    : DIContainer :=
  {| instances := instances this;
     providers := <[key := value]> (providers this) |}.

(** The state a call of [construct] runs in. *)
Record State : Type := mkState {
  this : DIContainer;
  heap : list HeapObj;
  trace : list Event;
}.

Definition start (c : DIContainer) : State :=
  {| this := c; heap := []; trace := [] |}.

(** ** The monad: state, exceptions, fuel

    [None] is a computation that ran out of fuel (it stands for the
    unbounded recursion of a cyclic dependency graph). *)
Definition M (A : Type) : Type := State → option (Completion A * State).

Definition ret {A} (a : A) : M A := λ s, Some (Normal a, s).

Definition throw {A} (e : JsVal) : M A := λ s, Some (Throw e, s).

Definition bind {A B} (m : M A) (f : A → M B) : M B := λ s,
  match m s with
  | Some (Normal a, s') => f a s'
  | Some (Throw e, s') => Some (Throw e, s')
  | None => None
  end.

(** [try { m } catch (e) { h e }] *)
Definition try_catch {A} (m : M A) (h : JsVal → M A) : M A := λ s,
  match m s with
  | Some (Normal a, s') => Some (Normal a, s')
  | Some (Throw e, s') => h e s'
  | None => None
  end.

Definition out_of_fuel {A} : M A := λ _, None.

Definition gets {A} (f : State → A) : M A := λ s, Some (Normal (f s), s).

Definition modify (f : State → State) : M unit := λ s, Some (Normal tt, f s).

Declare Scope js_scope.
Delimit Scope js_scope with js.
Notation "'let!' x ':=' m 'in' k" := (bind m (λ x, k))
  (at level 10, x name, m at level 100, k at level 200,
   format "'[v' 'let!'  x  :=  m  'in' '/' k ']'") : js_scope.
Notation "'do!' m 'in' k" := (bind m (λ _, k))
  (at level 10, m at level 100, k at level 200,
   format "'[v' 'do!'  m  'in' '/' k ']'") : js_scope.
Open Scope js_scope.

Definition push (o : HeapObj) (s : State) : State :=
  {| this := this s; heap := heap s ++ [o]; trace := trace s |}.

Definition record (ev : Event) (s : State) : State :=
  {| this := this s; heap := heap s; trace := trace s ++ [ev] |}.

Definition cache (key value : JsVal) (s : State) : State :=
  {| this := add key value (this s); heap := heap s; trace := trace s |}.

(** Allocation: the new object gets the next free address. *)
Definition alloc (o : HeapObj) : M JsVal := λ s,
  Some (Normal (VLoc (length (heap s))), push o s).

Definition log (ev : Event) : M unit := modify (record ev).

(** [throw new TypeError(message)], as the engine does; the wording of the
    messages differs between engines. *)
Definition throw_TypeError {A} (message : string) : M A :=
  let! e := alloc (HTypeError message) in throw e.

(** [Array.prototype.map] with a callback that may throw: left to right,
    stopping at the first exception. *)
Fixpoint array_map (f : JsVal → M JsVal) (xs : list JsVal) : M (list JsVal) :=
  match xs with
  | [] => ret []
  | x :: xs' =>
      let! y := f x in
      let! ys := array_map f xs' in
      ret (y :: ys)
  end.

(** ** The test classes of src/index.test.ts, and a few more keys *)

Definition NoDependencies : JsVal := VObj 0.
Definition HasDefaults : JsVal := VObj 1.
Definition DefaultsAndDependencies : JsVal := VObj 2.
(** [class Broken { constructor() { throw boom; } }] *)
Definition Broken : JsVal := VObj 3.
(** [class NeedsBroken { static dependencies() { return [NoDependencies, Broken, HasDefaults]; } }] *)
Definition NeedsBroken : JsVal := VObj 4.
(** [class Top { static dependencies() { return [NeedsBroken]; } }] *)
Definition Top : JsVal := VObj 5.
(** [const boom = new Error('boom')] *)
Definition boom : JsVal := VObj 6.
(** [const RequestRandomNumber = Symbol()] *)
Definition RequestRandomNumber : JsVal := VSymbol 0 None.

Definition test_objects (id : nat) : ObjDesc :=
  match id with
  | 0 => Injectable "NoDependencies" None (λ _, Normal tt)
  | 1 => Injectable "HasDefaults" (Some (Normal [])) (λ _, Normal tt)
  | 2 => Injectable "DefaultsAndDependencies"
           (Some (Normal [NoDependencies; HasDefaults])) (λ _, Normal tt)
  | 3 => Injectable "Broken" None (λ _, Throw boom)
  | 4 => Injectable "NeedsBroken"
           (Some (Normal [NoDependencies; Broken; HasDefaults])) (λ _, Normal tt)
  | 5 => Injectable "Top" (Some (Normal [NeedsBroken])) (λ _, Normal tt)
  | 6 => {| obj_name := Some "Error"; obj_toString := "Error: boom";
            obj_dependencies := None; obj_construct := None |}
  | _ => plain_object
  end.

(** [() => 4] cannot be written without numbers; [() => 'hello, world'],
    [() => undefined] and [() => { throw boom; }] can. *)
Definition hello_provider : Provider :=
  {| fn_id := 0; fn_call := Normal (VStr "hello, world") |}.
Definition undefined_provider : Provider :=
  {| fn_id := 1; fn_call := Normal VUndefined |}.
Definition failing_provider : Provider :=
  {| fn_id := 2; fn_call := Throw boom |}.

(** A rank for the keys of [test_objects]: every class ranks above the
    classes it declares. *)
Definition test_rank (key : JsVal) : nat :=
  match key with
  | VObj 2 | VObj 4 => 1
  | VObj 5 => 2
  | _ => 0
  end.



(** The states the tests end in. *)

(** After [construct(DefaultsAndDependencies)] on a new container. *)
Definition after_DefaultsAndDependencies : State :=
  {| this := add DefaultsAndDependencies (VLoc 2)
               (add HasDefaults (VLoc 1)
                  (add NoDependencies (VLoc 0) new_DIContainer));
     heap := [HInstance NoDependencies []; HInstance HasDefaults [];
              HInstance DefaultsAndDependencies [VLoc 0; VLoc 1]];
     trace := [ECallDependencies DefaultsAndDependencies;
               ENew NoDependencies [] (Normal (VLoc 0));
               ECallDependencies HasDefaults;
               ENew HasDefaults [] (Normal (VLoc 1));
               ENew DefaultsAndDependencies [VLoc 0; VLoc 1]
                 (Normal (VLoc 2))] |}.

(** After [provide(NoDependencies, () => 'hello, world')] and
    [construct(DefaultsAndDependencies)]. *)
Definition after_override : State :=
  {| this := add DefaultsAndDependencies (VLoc 1)
               (add HasDefaults (VLoc 0)
                  (add NoDependencies (VStr "hello, world")
                     (provide NoDependencies hello_provider new_DIContainer)));
     heap := [HInstance HasDefaults [];
              HInstance DefaultsAndDependencies [VStr "hello, world"; VLoc 0]];
     trace := [ECallDependencies DefaultsAndDependencies;
               ECallProvider NoDependencies hello_provider;
               ECallDependencies HasDefaults;
               ENew HasDefaults [] (Normal (VLoc 0));
               ENew DefaultsAndDependencies [VStr "hello, world"; VLoc 0]
                 (Normal (VLoc 1))] |}.

(** After a failed [construct(NeedsBroken)] on a new container. *)
Definition after_NeedsBroken : State :=
  {| this := add NoDependencies (VLoc 0) new_DIContainer;
     heap := [HInstance NoDependencies [];
              HConstructionError "Error constructing Broken" boom;
              HConstructionError "Error constructing NeedsBroken" (VLoc 1)];
     trace := [ECallDependencies NeedsBroken;
               ENew NoDependencies [] (Normal (VLoc 0));
               ENew Broken [] (Throw boom)] |}.

(** After a failed [construct(Top)] on a new container. *)
Definition after_Top : State :=
  {| this := add NoDependencies (VLoc 0) new_DIContainer;
     heap := [HInstance NoDependencies [];
              HConstructionError "Error constructing Broken" boom;
              HConstructionError "Error constructing NeedsBroken" (VLoc 1);
              HConstructionError "Error constructing Top" (VLoc 2)];
     trace := [ECallDependencies Top; ECallDependencies NeedsBroken;
               ENew NoDependencies [] (Normal (VLoc 0));
               ENew Broken [] (Throw boom)] |}.

(** After [construct(DefaultsAndDependencies)], a failed
    [construct(NeedsBroken)], and two more successful calls. *)
Definition after_four_calls : State :=
  {| this := this after_DefaultsAndDependencies;
     heap := heap after_DefaultsAndDependencies ++
             [HConstructionError "Error constructing Broken" boom;
              HConstructionError "Error constructing NeedsBroken" (VLoc 3)];
     trace := trace after_DefaultsAndDependencies ++
              [ECallDependencies NeedsBroken; ENew Broken [] (Throw boom)] |}.

Section Container.

(** The objects of the host program. *)
Variable objects : nat → ObjDesc.

(** *** What JavaScript does with a value *)

(** [x.name], for [x] neither [null] nor [undefined]; [None] is [undefined].
    Primitives have no [name]; an instance is a plain object; an [Error]
    inherits [name] from its prototype. *)
Definition get_name (h : list HeapObj) (x : JsVal) : option string :=
  match x with
  | VObj id => obj_name (objects id)
  | VLoc a =>
      match h !! a with
      | Some (HConstructionError _ _) => Some "Error"
      | Some (HTypeError _) => Some "TypeError"
      | Some (HInstance _ _) | None => None
      end
  | _ => None
  end.

(** [x.toString()], for [x] neither [null] nor [undefined]. *)
Definition toString (h : list HeapObj) (x : JsVal) : string :=
  match x with
  | VUndefined => "undefined"
  | VNull => "null"
  | VBool b => if b then "true" else "false"
  | VStr s => s
  | VSymbol _ None => "Symbol()"
  | VSymbol _ (Some d) => "Symbol(" +:+ d +:+ ")"
  | VObj id => obj_toString (objects id)
  | VLoc a =>
      match h !! a with
      | Some (HConstructionError m _) => "Error: " +:+ m
      | Some (HTypeError m) => "TypeError: " +:+ m
      | Some (HInstance _ _) | None => "[object Object]"
      end
  end.

(** [object.dependencies]: reading a property of [null] or [undefined]
    throws; a primitive or an instance has no such property. *)
Definition get_dependencies (object : JsVal)
    : M (option (Completion (list JsVal))) :=
  match object with
  | VUndefined | VNull =>
      throw_TypeError "Cannot read properties of null or undefined"
  | VObj id => ret (obj_dependencies (objects id))
  | _ => ret None
  end.

(** [object.dependencies()] *)
Definition call_dependencies (object : JsVal)
    (body : Completion (list JsVal)) : M (list JsVal) :=
  do! log (ECallDependencies object) in
  match body with
  | Normal ds => ret ds
  | Throw e => throw e
  end.

(** The constructor of [object], if it is one. *)
Definition constructor_of (object : JsVal)
    : option (list JsVal → Completion unit) :=
  match object with
  | VObj id => obj_construct (objects id)
  | _ => None
  end.

(** [new object(...args)] *)
Definition new (object : JsVal) (args : list JsVal) : M JsVal :=
  match constructor_of object with
  | None => throw_TypeError "object is not a constructor"
  | Some body =>
      match body args with
      | Normal _ =>
          let! instance := alloc (HInstance object args) in
          do! log (ENew object args (Normal instance)) in
          ret instance
      | Throw e =>
          do! log (ENew object args (Throw e)) in
          throw e
      end
  end.

(** [fn()] for the provider stored under [key] *)
Definition call_provider (key : JsVal) (fn : option Provider) : M JsVal :=
  match fn with
  | None => throw_TypeError "this.providers.get(...) is not a function"
  | Some fn =>
      do! log (ECallProvider key fn) in
      match fn_call fn with
      | Normal v => ret v
      | Throw e => throw e
      end
  end.

(** *** ConstructionError *)

(** [const reference =
       x === null || x === undefined ? x
       : x.name !== undefined ? x.name
       : x.toString()]
    as the string that ['Error constructing ' + reference] appends. *)
Definition reference (h : list HeapObj) (x : JsVal) : string :=
  match x with
  | VNull => "null"
  | VUndefined => "undefined"
  | _ =>
      match get_name h x with
      | Some name => name
      | None => toString h x
      end
  end.

(** [super('Error constructing ' + reference, { cause })] *)
Definition ConstructionError_message (h : list HeapObj) (x : JsVal) : string :=
  "Error constructing " +:+ reference h x.

(** [new ConstructionError(x, cause)] *)
Definition new_ConstructionError (x cause : JsVal) : M JsVal :=
  let! h := gets heap in
  alloc (HConstructionError (ConstructionError_message h x) cause).

(** *** DIContainer.construct *)

(** [this.add(key, value)] inside a method *)
Definition this_add (key value : JsVal) : M unit := modify (cache key value).

(** [private constructViaProvider(key) {
       const instance = this.providers.get(key)();
       this.add(key, instance);
       return instance; }] *)
Definition constructViaProvider (key : JsVal) : M JsVal :=
  let! fn := gets (λ s, providers (this s) !! key) in
  let! instance := call_provider key fn in
  do! this_add key instance in
  ret instance.

(** [private constructViaDependencies(object) {
       const dependencies = object.dependencies
         ? object.dependencies().map((x) => this.construct(x))
         : [];
       const instance = new object(...dependencies);
       this.add(object, instance);
       return instance; }]
    [construct] is the method [this.construct]. *)
Definition constructViaDependencies (construct : JsVal → M JsVal)
    (object : JsVal) : M JsVal :=
  let! method := get_dependencies object in
  let! dependencies :=
    match method with
    | Some body =>
        let! keys := call_dependencies object body in
        array_map construct keys
    | None => ret []
    end in
  let! instance := new object dependencies in
  do! this_add object instance in
  ret instance.

(** [construct(object) {
       try {
         if (this.instances.has(object)) return this.instances.get(object);
         else if (this.providers.has(object)) return this.constructViaProvider(object);
         else return this.constructViaDependencies(object);
       } catch (e) { throw new ConstructionError(object, e); } }]
    Each call of [construct] uses one unit of fuel. *)
Fixpoint construct (fuel : nat) (object : JsVal) : M JsVal :=
  match fuel with
  | 0 => out_of_fuel
  | S fuel' =>
      try_catch
        (let! has := gets (λ s, bool_decide (is_Some (instances (this s) !! object))) in
         if has then
           gets (λ s, default VUndefined (instances (this s) !! object))
         else
           let! has_provider :=
             gets (λ s, bool_decide (is_Some (providers (this s) !! object))) in
           if has_provider then constructViaProvider object
           else constructViaDependencies (construct fuel') object)
        (λ e, let! err := new_ConstructionError object e in throw err)
  end.

(** *** The first version of the container (src/index.ts, second part)

    [class DIContainer { private instances: Map<any, InstanceType<Injectable>>; }]
    The first version has no provider registry.  It is run here in the same
    [State]; it never reads or writes the [providers] field. *)

(** [register(key, value) { this.instances.set(key, value); return this; }] *)
Definition register (key value : JsVal) (this : DIContainer) : DIContainer :=
  {| instances := <[key := value]> (instances this);
     providers := providers this |}.

(** [class ConstructionError extends Error {
       constructor(x: Injectable, cause: Error) {
         super('Error constructing ' + x.name, { cause }); } }]
    Reading [x.name] throws when [x] is [null] or [undefined]; a name that is
    [undefined] is appended as ["undefined"]. *)
Definition new_ConstructionError_v1 (x cause : JsVal) : M JsVal :=
  match x with
  | VUndefined | VNull =>
      throw_TypeError "Cannot read properties of null or undefined"
  | _ =>
      let! h := gets heap in
      alloc (HConstructionError
               ("Error constructing " +:+
                  match get_name h x with
                  | Some name => name
                  | None => "undefined"
                  end)
               cause)
  end.

(** [construct(object) {
       try {
         if (this.instances.has(object)) return this.instances.get(object);
         const dependencies = object.dependencies
           ? object.dependencies().map((x) => this.construct(x))
           : [];
         const instance = new object(...dependencies);
         this.register(object, instance);
         return instance;
       } catch (e) { throw new ConstructionError(object, e); } }] *)
Fixpoint construct_v1 (fuel : nat) (object : JsVal) : M JsVal :=
  match fuel with
  | 0 => out_of_fuel
  | S fuel' =>
      try_catch
        (let! has := gets (λ s, bool_decide (is_Some (instances (this s) !! object))) in
         if has then
           gets (λ s, default VUndefined (instances (this s) !! object))
         else
           let! method := get_dependencies object in
           let! dependencies :=
             match method with
             | Some body =>
                 let! keys := call_dependencies object body in
                 array_map (construct_v1 fuel') keys
             | None => ret []
             end in
           let! instance := new object dependencies in
           do! modify (λ s, {| this := register object instance (this s);
                               heap := heap s; trace := trace s |}) in
           ret instance)
        (λ e, let! err := new_ConstructionError_v1 object e in throw err)
  end.

(** ** Resolving a sequence of keys

    [resolves fuel keys s values s']: calling [construct] on each key of
    [keys], from left to right, each call starting in the state the previous
    one left, returns [values] and ends in [s']. *)
Inductive resolves (fuel : nat)
    : list JsVal → State → list JsVal → State → Prop :=
| resolves_nil s :
    resolves fuel [] s [] s
| resolves_cons d keys s v s1 values s' :
    construct fuel d s = Some (Normal v, s1) →
    resolves fuel keys s1 values s' →
    resolves fuel (d :: keys) s (v :: values) s'.

(** ** Big-step reading of [construct]

    The same algorithm as a derivation tree, without fuel: one node per call
    of [construct].  [construct_eval] shows that every run of the function is
    such a tree; the properties below are proved by induction on it. *)

(** [object.dependencies ? object.dependencies() : []] *)
Definition keys_of (object : JsVal) : M (list JsVal) :=
  let! method := get_dependencies object in
  match method with
  | Some body => call_dependencies object body
  | None => ret []
  end.

(** The last three statements of [constructViaDependencies]. *)
Definition instantiate (object : JsVal) (dependencies : list JsVal) : M JsVal :=
  let! instance := new object dependencies in
  do! this_add object instance in
  ret instance.

(** The state after [throw new ConstructionError(object, e)]. *)
Definition raised (object e : JsVal) (s : State) : State :=
  push (HConstructionError (ConstructionError_message (heap s) object) e) s.

Inductive eval : JsVal → State → Completion JsVal → State → Prop :=
| eval_cached object s v :
    instances (this s) !! object = Some v →
    eval object s (Normal v) s
| eval_return object s v s' :
    instances (this s) !! object = None →
    eval_body object s (Normal v) s' →
    eval object s (Normal v) s'
| eval_rethrow object s e s' :
    instances (this s) !! object = None →
    eval_body object s (Throw e) s' →
    eval object s (Throw (VLoc (length (heap s')))) (raised object e s')
with eval_body : JsVal → State → Completion JsVal → State → Prop :=
| body_provider object s fn r s' :
    providers (this s) !! object = Some fn →
    constructViaProvider object s = Some (r, s') →
    eval_body object s r s'
| body_keys_throw object s e s' :
    providers (this s) !! object = None →
    keys_of object s = Some (Throw e, s') →
    eval_body object s (Throw e) s'
| body_dependency_throw object s keys s1 e s' :
    providers (this s) !! object = None →
    keys_of object s = Some (Normal keys, s1) →
    eval_list keys s1 (Throw e) s' →
    eval_body object s (Throw e) s'
| body_instantiate object s keys s1 dependencies s2 r s' :
    providers (this s) !! object = None →
    keys_of object s = Some (Normal keys, s1) →
    eval_list keys s1 (Normal dependencies) s2 →
    instantiate object dependencies s2 = Some (r, s') →
    eval_body object s r s'
with eval_list : list JsVal → State → Completion (list JsVal) → State → Prop :=
| list_nil s :
    eval_list [] s (Normal []) s
| list_throw x xs s e s' :
    eval x s (Throw e) s' →
    eval_list (x :: xs) s (Throw e) s'
| list_rest_throw x xs s y s1 e s' :
    eval x s (Normal y) s1 →
    eval_list xs s1 (Throw e) s' →
    eval_list (x :: xs) s (Throw e) s'
| list_cons x xs s y s1 ys s' :
    eval x s (Normal y) s1 →
    eval_list xs s1 (Normal ys) s' →
    eval_list (x :: xs) s (Normal (y :: ys)) s'.

Scheme eval_ind' := Minimality for eval Sort Prop
  with eval_body_ind' := Minimality for eval_body Sort Prop
  with eval_list_ind' := Minimality for eval_list Sort Prop.
Combined Scheme eval_mutind from eval_ind', eval_body_ind', eval_list_ind'.

(** ** Vocabulary of the specification *)

(** The static [dependencies] method of a key, if it has one. *)
Definition dependencies_of (object : JsVal) : option (Completion (list JsVal)) :=
  match object with
  | VObj id => obj_dependencies (objects id)
  | _ => None
  end.

(** The declared-dependencies sequence of a key; empty when the method is
    absent. *)
Definition declared (object : JsVal) : list JsVal :=
  match dependencies_of object with
  | Some (Normal keys) => keys
  | _ => []
  end.

(** [s'] is a later state than [s]: the provider registry is the same, the
    heap and the call log have only grown, no cache entry was removed. *)
Definition extends (s s' : State) : Prop :=
  providers (this s') = providers (this s) ∧
  heap s `prefix_of` heap s' ∧
  trace s `prefix_of` trace s' ∧
  dom (instances (this s)) ⊆ dom (instances (this s')).

(** The calls logged between [s] and a later state [s']. *)
Definition new_events (s s' : State) : list Event :=
  drop (length (trace s)) (trace s').

(** Keys whose construction is under way: none of them is in the cache. *)
Definition uncached (pending : list JsVal) (s : State) : Prop :=
  ∀ key, key ∈ pending → instances (this s) !! key = None.

(** Every key under way is waiting for another key under way, or for [next],
    the key about to be resolved; none of them has a provider. *)
Definition waiting_for (registry : gmap JsVal Provider)
    (pending : list JsVal) (next : JsVal) : Prop :=
  ∀ key, key ∈ pending →
    registry !! key = None ∧
    ∃ d, d ∈ declared key ∧ (d ∈ pending ∨ d = next).

(** Counting calls in a log. *)
Definition count (p : Event → bool) (t : list Event) : nat :=
  length (filter (λ ev, p ev = true) t).

(** [ev] is a call of the constructor of [object]. *)
Definition is_new (object : JsVal) (ev : Event) : bool :=
  match ev with
  | ENew o _ _ => bool_decide (o = object)
  | _ => false
  end.

(** [ev] is a call of the constructor of [object] that returned an instance. *)
Definition is_built (object : JsVal) (ev : Event) : bool :=
  match ev with
  | ENew o _ (Normal _) => bool_decide (o = object)
  | _ => false
  end.

(** [ev] is a call of the provider [fn] for [key]. *)
Definition is_provided (key : JsVal) (fn : Provider) (ev : Event) : bool :=
  match ev with
  | ECallProvider k f => bool_decide (k = key ∧ f = fn)
  | _ => false
  end.

(** [ev] is a call into the host program that threw. *)
Definition is_failure (ev : Event) : bool :=
  match ev with
  | ECallProvider _ fn =>
      match fn_call fn with Throw _ => true | Normal _ => false end
  | ECallDependencies object =>
      match dependencies_of object with
      | Some (Throw _) => true
      | _ => false
      end
  | ENew _ _ (Throw _) => true
  | ENew _ _ (Normal _) => false
  end.

(** [fn] is the provider of [key], and the cache holds nothing else than
    its result [v] under [key]. *)
Definition serves (key : JsVal) (fn : Provider) (v : JsVal) (s : State) : Prop :=
  providers (this s) !! key = Some fn ∧
  (instances (this s) !! key = None ∨ instances (this s) !! key = Some v).

(** If [ev] is a constructor call, the constructor received [v] at every
    position where its class declares [key]. *)
Definition receives (key v : JsVal) (ev : Event) : Prop :=
  ∀ p args res, ev = ENew p args res →
    ∀ i, declared p !! i = Some key → args !! i = Some v.

(** The life of a container: a program calls its three public methods in
    some order, catching what [construct] throws. *)
Inductive Call : Type :=
| CallAdd (key value : JsVal)
| CallProvide (key : JsVal) (fn : Provider)
| CallConstruct (object : JsVal).

Fixpoint run (fuel : nat) (calls : list Call) (s : State) : option State :=
  match calls with
  | [] => Some s
  | CallAdd key value :: rest => run fuel rest (cache key value s)
  | CallProvide key fn :: rest =>
      run fuel rest
        {| this := provide key fn (this s); heap := heap s; trace := trace s |}
  | CallConstruct object :: rest =>
      match construct fuel object s with
      | Some (_, s') => run fuel rest s'
      | None => None
      end
  end.

(** No key has had more than one instance built by its constructor, and a
    key that has one is in the cache. *)
Definition built_once (s : State) : Prop :=
  ∀ key,
    count (is_built key) (trace s) ≤ 1 ∧
    (instances (this s) !! key = None → count (is_built key) (trace s) = 0).

(** Between [s] and [s'] the constructor of [key] was called at most once;
    if it was, the call in question threw or [key] is now cached; if [key]
    was cached already, it was not called. *)
Definition called_once (key : JsVal) (s : State) (failed : bool) (s' : State)
    : Prop :=
  count (is_new key) (trace s) ≤ count (is_new key) (trace s') ∧
  count (is_new key) (trace s') ≤ S (count (is_new key) (trace s)) ∧
  (count (is_new key) (trace s) < count (is_new key) (trace s') →
     failed = true ∨ is_Some (instances (this s') !! key)) ∧
  (is_Some (instances (this s) !! key) →
     count (is_new key) (trace s') = count (is_new key) (trace s)).

Definition is_Throw {A} (r : Completion A) : bool :=
  match r with Throw _ => true | Normal _ => false end.

(** Counting objects in a heap. *)
Definition count_objects (p : HeapObj → bool) (h : list HeapObj) : nat :=
  length (filter (λ o, p o = true) h).

(** [o] is a [TypeError] raised by the engine. *)
Definition is_TypeError (o : HeapObj) : bool :=
  match o with HTypeError _ => true | _ => false end.

(** [o] is an error object: a [TypeError] or a [ConstructionError]. *)
Definition is_error (o : HeapObj) : bool :=
  match o with HInstance _ _ => false | _ => true end.

(** [cause] is the failure of one of [key]'s own operations, where [t] is the
    log of the calls made, [a] the address of the [ConstructionError] that
    wraps [cause] and [m] the size of the heap before the call:
    - the provider of [key] threw [cause], and that was the last call made;
    - [key] has no provider, its [dependencies] method threw [cause], and
      that was the last call made;
    - [key] has no provider, its constructor threw [cause] on the arguments
      [args], and that call [new key(...args)] was the last call made;
    - [key] has no provider and is not a constructor ([null] and [undefined]
      are not), and [cause] is the [TypeError] that the engine created just
      before the wrapper, during the call. *)
Definition own_failure (h : list HeapObj) (registry : gmap JsVal Provider)
    (t : list Event) (m : nat) (key : JsVal) (a : nat) (cause : JsVal) : Prop :=
  (∃ fn, registry !! key = Some fn ∧ fn_call fn = Throw cause ∧
     last t = Some (ECallProvider key fn)) ∨
  (registry !! key = None ∧ dependencies_of key = Some (Throw cause) ∧
     last t = Some (ECallDependencies key)) ∨
  (registry !! key = None ∧
     ∃ body args, constructor_of key = Some body ∧ body args = Throw cause ∧
       last t = Some (ENew key args (Throw cause))) ∨
  (registry !! key = None ∧ constructor_of key = None ∧
     ∃ a0 message, cause = VLoc a0 ∧ a = S a0 ∧ m ≤ a0 ∧
       h !! a0 = Some (HTypeError message)).

(** [raised_for h registry t m key e]: [e] is a [ConstructionError] created
    during the call (the heap had [m] objects before it) that names [key]:
    its message is the one computed for [key] in the heap as it was when the
    error was created.  Its cause is either a failure of [key]'s own
    operations, or the [ConstructionError] raised for one of the keys that
    [key] declares, created just before it. *)
Inductive raised_for (h : list HeapObj) (registry : gmap JsVal Provider)
    (t : list Event) (m : nat) : JsVal → JsVal → Prop :=
| raised_own key a cause :
    m ≤ a →
    h !! a = Some (HConstructionError
                     (ConstructionError_message (take a h) key) cause) →
    own_failure h registry t m key a cause →
    raised_for h registry t m key (VLoc a)
| raised_dependency key a d a0 :
    h !! a = Some (HConstructionError
                     (ConstructionError_message (take a h) key) (VLoc a0)) →
    a = S a0 →
    registry !! key = None →
    d ∈ declared key →
    raised_for h registry t m d (VLoc a0) →
    raised_for h registry t m key (VLoc a).

(** Between [s] and [s'] nothing failed if the result is normal, and exactly
    one thing did if the result is a thrown value, where a failure is a call
    into the host program that threw or a [TypeError] raised by the engine.
    A normal result leaves no new error object in the heap. *)
Definition fails_once (s : State) (failed : bool) (s' : State) : Prop :=
  count is_failure (trace s') + count_objects is_TypeError (heap s') =
    count is_failure (trace s) + count_objects is_TypeError (heap s) +
    (if failed then 1 else 0) ∧
  count is_failure (trace s) ≤ count is_failure (trace s') ∧
  count_objects is_TypeError (heap s) ≤ count_objects is_TypeError (heap s') ∧
  (failed = false →
     count_objects is_error (heap s') = count_objects is_error (heap s)).

(** [ev] is a call that produced the value [v] for the key [d]: the
    constructor of [d] returned the instance [v], or the provider of [d]
    returned [v]. *)
Definition yields (d v : JsVal) (ev : Event) : Prop :=
  match ev with
  | ENew o _ (Normal v') => o = d ∧ v' = v
  | ECallProvider k fn => k = d ∧ fn_call fn = Normal v
  | _ => False
  end.

(** Every value produced since position [n] of the log is in the cache,
    under a key that the cache [before] did not have; [before] is part of
    the cache. *)
Definition keeps_produced (before : gmap JsVal JsVal) (n : nat) (s : State)
    : Prop :=
  before ⊆ instances (this s) ∧
  ∀ ev d v, ev ∈ drop n (trace s) → yields d v ev →
    instances (this s) !! d = Some v ∧ before !! d = None.

(** The dependency graph is acyclic: [rank] decreases along every declared
    dependency. *)
Definition acyclic (rank : JsVal → nat) : Prop :=
  ∀ key d, d ∈ declared key → rank d < rank key.

(** [depends key d]: [key] declares [d] as a dependency. *)
Definition depends (key d : JsVal) : Prop := d ∈ declared key.

(** The key for which a call into the host program is made. *)
Definition event_key (ev : Event) : JsVal :=
  match ev with
  | ECallProvider key _ => key
  | ECallDependencies object => object
  | ENew object _ _ => object
  end.

(** Every cache entry is an entry of [before] or belongs to a key that
    [root] reaches along declared dependencies, and every call logged since
    position [n] is made for such a key. *)
Definition within (root : JsVal) (before : gmap JsVal JsVal) (n : nat)
    (s : State) : Prop :=
  (∀ j, is_Some (instances (this s) !! j) →
     is_Some (before !! j) ∨ rtc depends root j) ∧
  Forall (λ ev, rtc depends root (event_key ev)) (drop n (trace s)).

(** Every constructor called since position [n] of the log received, for
    each key its class declares, the value now cached under that key. *)
Definition wired (n : nat) (s : State) : Prop :=
  ∀ p args res, ENew p args res ∈ drop n (trace s) →
    Forall2 (λ d v, instances (this s) !! d = Some v) (declared p) args.


(** Two runs agree: both run out of fuel, or both end with the same result
    (the same value, or the same thrown address), the same container, the
    same call log and heaps of the same length; if the result is a value the
    end states are the same. *)
Definition agree {A} (run1 run2 : option (Completion A * State)) : Prop :=
  match run1, run2 with
  | None, None => True
  | Some (r1, s1), Some (r2, s2) =>
      r1 = r2 ∧ this s1 = this s2 ∧ trace s1 = trace s2 ∧
      length (heap s1) = length (heap s2) ∧
      (is_Throw r1 = false → s1 = s2)
  | _, _ => False
  end.

(** * Properties *)

(** ** Running the monad *)

Lemma bind_Some {A B} (m : M A) (f : A → M B) s r s' :
  bind m f s = Some (r, s') ↔
    (∃ a s1, m s = Some (Normal a, s1) ∧ f a s1 = Some (r, s')) ∨
    (∃ e, m s = Some (Throw e, s') ∧ r = Throw e).
Proof.
  unfold bind. destruct (m s) as [[[a|e] s1]|]; split.
  - intros H. left. eauto.
  - intros [(a' & s1' & Hm & Hf)|(e & Hm & _)]; by simplify_eq.
  - intros H. right. exists e. by simplify_eq.
  - intros [(a' & s1' & Hm & Hf)|(e' & Hm & ->)]; by simplify_eq.
  - done.
  - intros [(a' & s1' & Hm & Hf)|(e' & Hm & _)]; done.
Qed.

Ltac inv_bind H :=
  let a := fresh "a" in
  let s1 := fresh "s1" in
  let e := fresh "e" in
  let H1 := fresh H in
  let Heq := fresh "Heq" in
  apply bind_Some in H as [(a & s1 & H1 & H)|(e & H & Heq)];
    [|first [discriminate Heq|injection Heq as ->|subst]].

(** Run the straight-line commands of a hypothesis. *)
Ltac run_M H :=
  cbv [bind ret throw gets modify alloc log this_add throw_TypeError
       call_dependencies call_provider new_ConstructionError] in H.

Lemma construct_S fuel object :
  construct (S fuel) object =
    try_catch
      (let! has := gets (λ s, bool_decide (is_Some (instances (this s) !! object))) in
       if has then
         gets (λ s, default VUndefined (instances (this s) !! object))
       else
         let! has_provider :=
           gets (λ s, bool_decide (is_Some (providers (this s) !! object))) in
         if has_provider then constructViaProvider object
         else constructViaDependencies (construct fuel) object)
      (λ e, let! err := new_ConstructionError object e in throw err).
Proof. done. Qed.

Lemma constructViaDependencies_split f object s :
  constructViaDependencies f object s =
    (let! keys := keys_of object in
     let! dependencies := array_map f keys in
     instantiate object dependencies) s.
Proof.
  unfold constructViaDependencies, keys_of, instantiate, bind.
  destruct (get_dependencies object s) as [[[[body|]|e] s1]|]; simpl; try done.
  destruct (call_dependencies object body s1) as [[[keys|e] s2]|]; done.
Qed.

(** The three ways a call of [construct] that has fuel left can go. *)
Lemma construct_S_cached fuel object s v :
  instances (this s) !! object = Some v →
  construct (S fuel) object s = Some (Normal v, s).
Proof.
  intros Hv. rewrite construct_S. unfold try_catch, bind, gets. simpl.
  rewrite bool_decide_eq_true_2 by eauto. by rewrite Hv.
Qed.

Lemma construct_S_provider fuel object s fn :
  instances (this s) !! object = None →
  providers (this s) !! object = Some fn →
  construct (S fuel) object s =
    try_catch (constructViaProvider object)
      (λ e, let! err := new_ConstructionError object e in throw err) s.
Proof.
  intros Hv Hp. rewrite construct_S. unfold try_catch, bind, gets. simpl.
  rewrite bool_decide_eq_false_2 by (rewrite Hv; by intros [??]).
  by rewrite bool_decide_eq_true_2 by eauto.
Qed.

Lemma construct_S_default fuel object s :
  instances (this s) !! object = None →
  providers (this s) !! object = None →
  construct (S fuel) object s =
    try_catch (constructViaDependencies (construct fuel) object)
      (λ e, let! err := new_ConstructionError object e in throw err) s.
Proof.
  intros Hv Hp. rewrite construct_S. unfold try_catch, bind, gets. simpl.
  rewrite bool_decide_eq_false_2 by (rewrite Hv; by intros [??]).
  by rewrite bool_decide_eq_false_2 by (rewrite Hp; by intros [??]).
Qed.

Lemma rethrow_Some {A} object (e : JsVal) s :
  (let! err := new_ConstructionError object e in throw (A:=A) err) s =
    Some (Throw (VLoc (length (heap s))), raised object e s).
Proof. done. Qed.

Lemma array_map_eval f keys s r s' :
  (∀ x s r s', f x s = Some (r, s') → eval x s r s') →
  array_map f keys s = Some (r, s') → eval_list keys s r s'.
Proof.
  intros Hf. revert s r s'. induction keys as [|x xs IH]; intros s r s' H.
  - simpl in H. unfold ret in H. simplify_eq. constructor.
  - simpl in H. inv_bind H.
    + inv_bind H.
      * unfold ret in H. simplify_eq. eapply list_cons; eauto.
      * eapply list_rest_throw; eauto.
    + apply list_throw; eauto.
Qed.

(** Every run of [construct] is a derivation. *)
Lemma construct_eval fuel object s r s' :
  construct fuel object s = Some (r, s') → eval object s r s'.
Proof.
  revert object s r s'. induction fuel as [|fuel IH]; intros object s r s' H;
    [done|].
  destruct (instances (this s) !! object) as [v|] eqn:Hv.
  { rewrite (construct_S_cached _ _ _ v) in H by done. simplify_eq.
    by constructor. }
  assert (∀ rb sb, eval_body object s rb sb →
    try_catch (λ _, Some (rb, sb))
      (λ e, let! err := new_ConstructionError object e in throw err) s
      = Some (r, s') → eval object s r s') as Hwrap.
  { intros rb sb Hb Ht. unfold try_catch in Ht. destruct rb as [v|e].
    - simplify_eq. by apply eval_return.
    - rewrite rethrow_Some in Ht. simplify_eq. by apply eval_rethrow. }
  destruct (providers (this s) !! object) as [fn|] eqn:Hp.
  - rewrite (construct_S_provider _ _ _ fn) in H by done.
    unfold try_catch in H.
    destruct (constructViaProvider object s) as [[rb sb]|] eqn:Hb; [|done].
    apply (Hwrap rb sb); [by eapply body_provider|].
    unfold try_catch. by destruct rb.
  - rewrite construct_S_default in H by done.
    unfold try_catch in H. rewrite constructViaDependencies_split in H.
    destruct (bind (keys_of object) _ s) as [[rb sb]|] eqn:Hb; [|done].
    apply (Hwrap rb sb); [|unfold try_catch; by destruct rb].
    clear H Hwrap. inv_bind Hb.
    + inv_bind Hb.
      * eapply body_instantiate; eauto using array_map_eval.
      * eapply body_dependency_throw; eauto using array_map_eval.
    + by apply body_keys_throw.
Qed.

(** ** The three straight-line pieces *)

Lemma constructViaProvider_inv key fn s r s' :
  providers (this s) !! key = Some fn →
  constructViaProvider key s = Some (r, s') →
  (∃ v, fn_call fn = Normal v ∧ r = Normal v ∧
        s' = cache key v (record (ECallProvider key fn) s)) ∨
  (∃ e, fn_call fn = Throw e ∧ r = Throw e ∧
        s' = record (ECallProvider key fn) s).
Proof.
  intros Hp H. unfold constructViaProvider in H. run_M H. rewrite Hp in H.
  destruct (fn_call fn) as [v|e] eqn:Hfn; simplify_eq.
  - left. eauto.
  - right. eauto.
Qed.

Lemma keys_of_inv object s r s' :
  keys_of object s = Some (r, s') →
  (dependencies_of object = None ∧
     ((r = Normal [] ∧ s' = s) ∨
      (object = VNull ∨ object = VUndefined) ∧
      r = Throw (VLoc (length (heap s))) ∧
      s' = push (HTypeError "Cannot read properties of null or undefined") s)) ∨
  (∃ body, dependencies_of object = Some body ∧
     s' = record (ECallDependencies object) s ∧
     r = match body with Normal keys => Normal keys | Throw e => Throw e end).
Proof.
  intros H. unfold keys_of, get_dependencies in H.
  destruct object; simpl in *; run_M H; try (simplify_eq; by eauto 10).
  destruct (obj_dependencies (objects id)) as [[keys|e]|] eqn:Hd;
    simplify_eq; eauto 10.
Qed.

Lemma keys_of_Normal object s keys s' :
  keys_of object s = Some (Normal keys, s') →
  keys = declared object ∧
  (s' = s ∨ s' = record (ECallDependencies object) s).
Proof.
  intros H. unfold declared.
  apply keys_of_inv in H as [[Hd [[??]|(_ & ? & _)]]|(body & Hd & -> & Hr)];
    simplify_eq; rewrite Hd; [by auto|].
  destruct body; simplify_eq. auto.
Qed.

Lemma instantiate_inv object args s r s' :
  instantiate object args s = Some (r, s') →
  (constructor_of object = None ∧
     r = Throw (VLoc (length (heap s))) ∧
     s' = push (HTypeError "object is not a constructor") s) ∨
  (∃ body, constructor_of object = Some body ∧ body args = Normal tt ∧
     r = Normal (VLoc (length (heap s))) ∧
     s' = cache object (VLoc (length (heap s)))
            (record (ENew object args (Normal (VLoc (length (heap s)))))
               (push (HInstance object args) s))) ∨
  (∃ body e, constructor_of object = Some body ∧ body args = Throw e ∧
     r = Throw e ∧ s' = record (ENew object args (Throw e)) s).
Proof.
  intros H. unfold instantiate, new in H.
  destruct (constructor_of object) as [body|]; run_M H.
  - destruct (body args) as [[]|e] eqn:Hb; simplify_eq.
    + right. left. eauto 10.
    + right. right. eauto 10.
  - left. by simplify_eq.
Qed.

(** ** Later states *)

#[local] Instance extends_refl : Reflexive extends.
Proof. by intros s. Qed.

#[local] Instance extends_trans : Transitive extends.
Proof.
  intros s1 s2 s3 (?&?&?&?) (?&?&?&?).
  split_and!; [congruence|by etrans..].
Qed.

Lemma extends_push o s : extends s (push o s).
Proof. split_and!; simpl; [done|by apply prefix_app_r|done..]. Qed.

Lemma extends_record ev s : extends s (record ev s).
Proof. split_and!; simpl; [done..|by apply prefix_app_r|done]. Qed.

Lemma extends_cache key value s : extends s (cache key value s).
Proof. split_and!; simpl; [done..|]. rewrite dom_insert. set_solver. Qed.

Lemma extends_raised object e s : extends s (raised object e s).
Proof. apply extends_push. Qed.

Ltac solve_extends :=
  repeat first
    [ eassumption
    | reflexivity
    | match goal with
      | |- extends _ (push _ _) => etrans; [|apply extends_push]
      | |- extends _ (record _ _) => etrans; [|apply extends_record]
      | |- extends _ (cache _ _ _) => etrans; [|apply extends_cache]
      | |- extends _ (raised _ _ _) => etrans; [|apply extends_raised]
      | H : extends ?a _ |- extends ?a _ => etrans; [exact H|]; clear H
      end ].

Lemma eval_extends_all :
  (∀ object s r s', eval object s r s' → extends s s') ∧
  (∀ object s r s', eval_body object s r s' → extends s s') ∧
  (∀ keys s r s', eval_list keys s r s' → extends s s').
Proof.
  apply eval_mutind.
  - done.
  - done.
  - intros k s e s' _ _ IH. solve_extends.
  - intros k s fn r s' Hp H.
    apply (constructViaProvider_inv _ _ _ _ _ Hp) in H
      as [(?&?&?&->)|(?&?&?&->)]; solve_extends.
  - intros k s e s' _ H.
    apply keys_of_inv in H as [[_ [[??]|(_&_&->)]]|(?&_&->&_)];
      simplify_eq; solve_extends.
  - intros k s keys s1 e s' _ H _ IH.
    apply keys_of_Normal in H as [_ [->| ->]]; [done|].
    etrans; [apply extends_record|done].
  - intros k s keys s1 vs s2 r s' _ H _ IH Hi.
    apply keys_of_Normal in H as [_ Hs1].
    assert (extends s s1) by (destruct Hs1 as [->| ->]; solve_extends).
    apply instantiate_inv in Hi as [(_&_&->)|[(?&_&_&_&->)|(?&?&_&_&_&->)]];
      solve_extends.
  - done.
  - done.
  - intros. solve_extends.
  - intros. solve_extends.
Qed.

Lemma eval_extends object s r s' : eval object s r s' → extends s s'.
Proof. apply eval_extends_all. Qed.

Lemma eval_list_extends keys s r s' : eval_list keys s r s' → extends s s'.
Proof. apply eval_extends_all. Qed.

(** ** What a successful call leaves in the cache *)

Lemma eval_body_Normal_cached object s v s' :
  eval_body object s (Normal v) s' → instances (this s') !! object = Some v.
Proof.
  inversion 1 as [k s0 fn r s0' Hp Hc|k s0 keys s1 e s0' Hp Hk Hl|
                  |k s0 keys s1 vs s2 r s0' Hp Hk Hl Hi]; simplify_eq.
  - apply (constructViaProvider_inv _ _ _ _ _ Hp) in Hc
      as [(?&?&?&->)|(?&?&?&->)]; simplify_eq. simpl. apply lookup_insert_eq.
  - apply instantiate_inv in Hi as [(_&?&->)|[(?&_&_&?&->)|(?&?&_&_&?&->)]];
      simplify_eq. simpl. apply lookup_insert_eq.
Qed.

Lemma eval_Normal_cached object s v s' :
  eval object s (Normal v) s' → instances (this s') !! object = Some v.
Proof.
  inversion 1; simplify_eq; [done|]. by eapply eval_body_Normal_cached.
Qed.

Lemma extends_is_cached s s' key :
  extends s s' → is_Some (instances (this s) !! key) →
  is_Some (instances (this s') !! key).
Proof. intros (_&_&_&Hdom). rewrite <-!elem_of_dom. set_solver. Qed.

Lemma eval_list_Normal_is_cached keys s vs s' :
  eval_list keys s (Normal vs) s' →
  ∀ d, d ∈ keys → is_Some (instances (this s') !! d).
Proof.
  remember (Normal vs) as r eqn:Hr. intros H. revert vs Hr.
  induction H as [s|x xs s e s' Hx|x xs s y s1 e s' Hx Hxs IH
                  |x xs s y s1 ys s' Hx Hxs IH]; intros vs Hr; simplify_eq.
  - by intros d ?%elem_of_nil.
  - intros d [->|Hd]%elem_of_cons; [|by eapply IH].
    eapply extends_is_cached; [by eapply eval_list_extends|].
    apply eval_Normal_cached in Hx. eauto.
Qed.

(** ** A key under construction is not cached by its own dependencies

    While a key waits for its dependencies it is in neither map.  A nested
    request for it starts the same wait again, so a call that returns never
    put a waiting key into the cache. *)

Lemma uncached_same pending s s' :
  instances (this s') = instances (this s) →
  uncached pending s → uncached pending s'.
Proof. intros Hi Hu key Hkey. rewrite Hi. by apply Hu. Qed.

Lemma uncached_cache pending key value s :
  key ∉ pending → uncached pending s → uncached pending (cache key value s).
Proof.
  intros Hkey Hu k Hk. simpl. rewrite lookup_insert_ne; [by apply Hu|].
  by intros ->.
Qed.

Lemma waiting_for_cons registry pending object d :
  registry !! object = None →
  d ∈ declared object →
  waiting_for registry pending object →
  waiting_for registry (object :: pending) d.
Proof.
  intros Hp Hd Hw key [->|Hkey]%elem_of_cons.
  - split; [done|]. exists d. auto.
  - destruct (Hw key Hkey) as [? (d' & ? & Hd')]. split; [done|].
    exists d'. split; [done|]. left. destruct Hd' as [?| ->]; by constructor.
Qed.

Lemma eval_uncached_all :
  (∀ object s r s', eval object s r s' →
     ∀ pending, uncached pending s →
       waiting_for (providers (this s)) pending object →
       uncached pending s') ∧
  (∀ object s r s', eval_body object s r s' →
     ∀ pending, instances (this s) !! object = None →
       uncached pending s →
       waiting_for (providers (this s)) pending object →
       uncached pending s') ∧
  (∀ keys s r s', eval_list keys s r s' →
     ∀ pending, uncached pending s →
       (∀ d, d ∈ keys → waiting_for (providers (this s)) pending d) →
       uncached pending s').
Proof.
  apply eval_mutind.
  - done.
  - intros k s v s' Hv _ IH pending Hu Hw. by apply IH.
  - intros k s e s' Hv _ IH pending Hu Hw.
    eapply uncached_same; [|by apply IH]. done.
  - intros k s fn r s' Hp H pending Hv Hu Hw.
    apply (constructViaProvider_inv _ _ _ _ _ Hp) in H
      as [(?&?&?&->)|(?&?&?&->)]; [|by eapply uncached_same].
    apply uncached_cache; [|by eapply uncached_same].
    intros Hk. destruct (Hw k Hk) as [? _]. congruence.
  - intros k s e s' _ H pending Hv Hu Hw.
    apply keys_of_inv in H as [[_ [[??]|(_&_&->)]]|(?&_&->&_)];
      simplify_eq; by eapply uncached_same.
  - intros k s keys s1 e s' Hp H _ IH pending Hv Hu Hw.
    apply keys_of_Normal in H as [-> Hs1].
    assert (instances (this s1) = instances (this s) ∧
            providers (this s1) = providers (this s)) as [Hi1 Hp1]
      by (by destruct Hs1 as [->| ->]).
    assert (uncached (k :: pending) s') as Hu'.
    { apply IH.
      - intros key [->|Hkey]%elem_of_cons; rewrite Hi1; [done|by apply Hu].
      - intros d Hd. rewrite Hp1. by apply waiting_for_cons. }
    intros key Hkey. apply Hu'. by constructor.
  - intros k s keys s1 vs s2 r s' Hp H Hl IH Hi pending Hv Hu Hw.
    apply keys_of_Normal in H as [-> Hs1].
    assert (instances (this s1) = instances (this s) ∧
            providers (this s1) = providers (this s)) as [Hi1 Hp1]
      by (by destruct Hs1 as [->| ->]).
    assert (uncached (k :: pending) s2) as Hu2.
    { apply IH.
      - intros key [->|Hkey]%elem_of_cons; rewrite Hi1; [done|by apply Hu].
      - intros d Hd. rewrite Hp1. by apply waiting_for_cons. }
    assert (uncached pending s2) as Hu2'
      by (intros key Hkey; apply Hu2; by constructor).
    apply instantiate_inv in Hi as [(_&_&->)|[(?&_&_&_&->)|(?&?&_&_&_&->)]];
      [by eapply uncached_same| |by eapply uncached_same].
    apply uncached_cache; [|by eapply uncached_same].
    intros Hk. destruct (Hw k Hk) as [_ (d & Hd & Hd')].
    assert (d ∈ k :: pending) as Hd''
      by (destruct Hd' as [?| ->]; by constructor).
    apply Hu2 in Hd''.
    destruct (eval_list_Normal_is_cached _ _ _ _ Hl d Hd) as [? ?]. congruence.
  - done.
  - intros x xs s e s' _ IH pending Hu Hw. apply IH; [done|]. apply Hw.
    by constructor.
  - intros x xs s y s1 e s' Hx IHx _ IH pending Hu Hw.
    apply IH.
    + apply IHx; [done|]. apply Hw. by constructor.
    + intros d Hd. destruct (eval_extends _ _ _ _ Hx) as [-> _].
      apply Hw. by constructor.
  - intros x xs s y s1 ys s' Hx IHx _ IH pending Hu Hw.
    apply IH.
    + apply IHx; [done|]. apply Hw. by constructor.
    + intros d Hd. destruct (eval_extends _ _ _ _ Hx) as [-> _].
      apply Hw. by constructor.
Qed.

(** While [object] waits for its dependencies, none of them caches it. *)
Lemma eval_list_keeps_uncached object s keys r s' :
  instances (this s) !! object = None →
  providers (this s) !! object = None →
  keys = declared object →
  eval_list keys s r s' →
  instances (this s') !! object = None.
Proof.
  intros Hv Hp -> Hl.
  destruct eval_uncached_all as (_ & _ & Hlist).
  apply (Hlist _ _ _ _ Hl [object]); [| |by constructor].
  - by intros key ->%list_elem_of_singleton.
  - intros d Hd key ->%list_elem_of_singleton. split; [done|]. eauto.
Qed.

(** ** [construct] only adds cache entries *)

Lemma eval_cache_mono_all :
  (∀ object s r s', eval object s r s' →
     instances (this s) ⊆ instances (this s')) ∧
  (∀ object s r s', eval_body object s r s' →
     instances (this s) !! object = None →
     instances (this s) ⊆ instances (this s')) ∧
  (∀ keys s r s', eval_list keys s r s' →
     instances (this s) ⊆ instances (this s')).
Proof.
  apply eval_mutind.
  - done.
  - auto.
  - intros k s e s' Hv _ IH. by apply IH.
  - intros k s fn r s' Hp H Hv.
    apply (constructViaProvider_inv _ _ _ _ _ Hp) in H
      as [(?&?&?&->)|(?&?&?&->)]; [|done].
    simpl. by apply insert_subseteq.
  - intros k s e s' _ H _.
    apply keys_of_inv in H as [[_ [[??]|(_&_&->)]]|(?&_&->&_)];
      by simplify_eq.
  - intros k s keys s1 e s' _ H _ IH _.
    apply keys_of_Normal in H as [_ [->| ->]]; done.
  - intros k s keys s1 vs s2 r s' Hp H Hl IH Hi Hv.
    apply keys_of_Normal in H as [Hkeys Hs1].
    assert (instances (this s1) = instances (this s) ∧
            providers (this s1) = providers (this s)) as [Hi1 Hp1]
      by (by destruct Hs1 as [->| ->]).
    assert (instances (this s2) !! k = None) as Hv2.
    { eapply eval_list_keeps_uncached; [| |done..]; congruence. }
    rewrite <-Hi1. etrans; [done|].
    apply instantiate_inv in Hi as [(_&_&->)|[(?&_&_&_&->)|(?&?&_&_&_&->)]];
      [done| |done].
    simpl. by apply insert_subseteq.
  - done.
  - done.
  - intros. by etrans.
  - intros. by etrans.
Qed.

Lemma eval_cache_mono object s r s' :
  eval object s r s' → instances (this s) ⊆ instances (this s').
Proof. apply eval_cache_mono_all. Qed.

Lemma eval_list_cache_mono keys s r s' :
  eval_list keys s r s' → instances (this s) ⊆ instances (this s').
Proof. apply eval_cache_mono_all. Qed.

(** A failed call leaves its own key out of the cache. *)
Lemma eval_Throw_uncached object s e s' :
  eval object s (Throw e) s' → instances (this s') !! object = None.
Proof.
  inversion 1 as [| |k s0 e0 s1 Hv Hb]; simplify_eq. simpl.
  inversion Hb as [k s0 fn r s0' Hp Hc|k s0 e1 s0' Hp Hk
                  |k s0 keys s1' e1 s0' Hp Hk Hl
                  |k s0 keys s1' vs s2 r s0' Hp Hk Hl Hi]; simplify_eq.
  - apply (constructViaProvider_inv _ _ _ _ _ Hp) in Hc
      as [(?&?&?&->)|(?&?&?&->)]; by simplify_eq.
  - apply keys_of_inv in Hk as [[_ [[??]|(_&_&->)]]|(?&_&->&_)];
      by simplify_eq.
  - apply keys_of_Normal in Hk as [Hkeys Hs1].
    eapply eval_list_keeps_uncached; [| |done..];
      by destruct Hs1 as [->| ->].
  - apply keys_of_Normal in Hk as [Hkeys Hs1].
    assert (instances (this s2) !! object = None) as Hv2.
    { eapply eval_list_keeps_uncached; [| |done..];
        by destruct Hs1 as [->| ->]. }
    apply instantiate_inv in Hi as [(_&_&->)|[(?&_&_&?&->)|(?&?&_&_&_&->)]];
      by simplify_eq.
Qed.

(** The values a successful [map] returns are the cache entries of its keys. *)
Lemma eval_list_Normal_cached keys s vs s' :
  eval_list keys s (Normal vs) s' →
  Forall2 (λ d v, instances (this s') !! d = Some v) keys vs.
Proof.
  remember (Normal vs) as r eqn:Hr. intros H. revert vs Hr.
  induction H as [s|x xs s e s' Hx|x xs s y s1 e s' Hx Hxs IH
                  |x xs s y s1 ys s' Hx Hxs IH]; intros vs Hr; simplify_eq.
  - constructor.
  - constructor; [|by apply IH].
    apply eval_Normal_cached in Hx.
    eapply lookup_weaken; [done|]. by eapply eval_list_cache_mono.
Qed.

(** ** Fuel

    More fuel does not change a result; every derivation is a run with
    enough fuel; on an acyclic dependency graph [construct] returns. *)

Lemma array_map_mono f g keys s x :
  (∀ k s x, f k s = Some x → g k s = Some x) →
  array_map f keys s = Some x → array_map g keys s = Some x.
Proof.
  intros Hfg. revert s x. induction keys as [|k keys IH]; intros s x H; [done|].
  simpl in *. unfold bind in *.
  destruct (f k s) as [[[y|e] s1]|] eqn:Hf; [| |done];
    rewrite (Hfg _ _ _ Hf); [|done].
  destruct (array_map f keys s1) as [[[ys|e] s2]|] eqn:Hf'; [| |done];
    by rewrite (IH _ _ Hf').
Qed.

Lemma constructViaDependencies_mono f g object s x :
  (∀ k s x, f k s = Some x → g k s = Some x) →
  constructViaDependencies f object s = Some x →
  constructViaDependencies g object s = Some x.
Proof.
  intros Hfg. rewrite !constructViaDependencies_split. unfold bind.
  destruct (keys_of object s) as [[[keys|e] s1]|]; [| done..].
  destruct (array_map f keys s1) as [[[vs|e] s2]|] eqn:Hf; [| |done];
    by rewrite (array_map_mono _ _ _ _ _ Hfg Hf).
Qed.

Lemma construct_fuel_mono (fuel fuel' : nat) object s x :
  fuel ≤ fuel' → construct fuel object s = Some x →
  construct fuel' object s = Some x.
Proof.
  revert fuel' object s x. induction fuel as [|fuel IH];
    intros fuel' object s x Hle H; [done|].
  destruct fuel' as [|fuel']; [lia|].
  destruct (instances (this s) !! object) as [v|] eqn:Hv.
  { rewrite (construct_S_cached _ _ _ v) in H by done.
    by rewrite (construct_S_cached _ _ _ v). }
  destruct (providers (this s) !! object) as [fn|] eqn:Hp.
  { rewrite (construct_S_provider _ _ _ fn) in H by done.
    by rewrite (construct_S_provider _ _ _ fn). }
  rewrite construct_S_default in H by done.
  rewrite construct_S_default by done.
  unfold try_catch in *.
  destruct (constructViaDependencies (construct fuel) object s)
    as [rb|] eqn:Hb; [|done].
  erewrite constructViaDependencies_mono; [done| |done].
  intros. eapply IH; [|done]. lia.
Qed.

Lemma array_map_complete fuel keys s r s' :
  eval_list keys s r s' →
  Forall (λ k, ∀ s r s', eval k s r s' →
             construct fuel k s = Some (r, s')) keys →
  array_map (construct fuel) keys s = Some (r, s').
Proof.
  induction 1 as [s|x xs s e s' Hx|x xs s y s1 e s' Hx Hxs IH
                  |x xs s y s1 ys s' Hx Hxs IH];
    intros Hall; [done|apply Forall_cons in Hall as [Hc Hall]..];
    simpl; unfold bind; rewrite (Hc _ _ _ Hx); [done|by rewrite IH..].
Qed.

Lemma eval_construct_all :
  (∀ object s r s', eval object s r s' →
     ∃ fuel, construct fuel object s = Some (r, s')) ∧
  (∀ object s r s', eval_body object s r s' →
     instances (this s) !! object = None →
     ∃ fuel, ∀ rw sw,
       try_catch (λ _, Some (r, s'))
         (λ e, let! err := new_ConstructionError object e in throw err) s
         = Some (rw, sw) →
       construct fuel object s = Some (rw, sw)) ∧
  (∀ keys s r s', eval_list keys s r s' →
     ∃ fuel, array_map (construct fuel) keys s = Some (r, s')).
Proof.
  apply eval_mutind.
  - intros k s v Hv. exists 1. by apply construct_S_cached.
  - intros k s v s' Hv _ IH. destruct (IH Hv) as [fuel Hf].
    exists fuel. by apply Hf.
  - intros k s e s' Hv _ IH. destruct (IH Hv) as [fuel Hf].
    exists fuel. by apply Hf.
  - intros k s fn r s' Hp H Hv. exists 1. intros rw sw Hw.
    rewrite (construct_S_provider _ _ _ fn) by done.
    unfold try_catch in *. by rewrite H.
  - intros k s e s' Hp H Hv. exists 1. intros rw sw Hw.
    rewrite construct_S_default by done.
    unfold try_catch in *. rewrite constructViaDependencies_split.
    unfold bind at 1. by rewrite H.
  - intros k s keys s1 e s' Hp H _ [fuel IH] Hv. exists (S fuel).
    intros rw sw Hw. rewrite construct_S_default by done.
    unfold try_catch in *. rewrite constructViaDependencies_split.
    unfold bind at 1. rewrite H. unfold bind at 1. by rewrite IH.
  - intros k s keys s1 vs s2 r s' Hp H _ [fuel IH] Hi Hv. exists (S fuel).
    intros rw sw Hw. rewrite construct_S_default by done.
    unfold try_catch in *. rewrite constructViaDependencies_split.
    unfold bind at 1. rewrite H. unfold bind at 1. by rewrite IH, Hi.
  - intros s. by exists 0.
  - intros x xs s e s' _ [fuel IH]. exists fuel. simpl. unfold bind.
    by rewrite IH.
  - intros x xs s y s1 e s' _ [fuel1 IH1] _ [fuel2 IH2].
    exists (fuel1 `max` fuel2). simpl. unfold bind.
    rewrite (construct_fuel_mono fuel1 _ _ _ _ (Nat.le_max_l _ _) IH1).
    by rewrite (array_map_mono _ _ _ _ _
      (λ k s x, construct_fuel_mono fuel2 _ k s x (Nat.le_max_r _ _)) IH2).
  - intros x xs s y s1 ys s' _ [fuel1 IH1] _ [fuel2 IH2].
    exists (fuel1 `max` fuel2). simpl. unfold bind.
    rewrite (construct_fuel_mono fuel1 _ _ _ _ (Nat.le_max_l _ _) IH1).
    by rewrite (array_map_mono _ _ _ _ _
      (λ k s x, construct_fuel_mono fuel2 _ k s x (Nat.le_max_r _ _)) IH2).
Qed.

(** Every derivation is a run of [construct]. *)
Lemma eval_construct object s r s' :
  eval object s r s' → ∃ fuel, construct fuel object s = Some (r, s').
Proof. apply eval_construct_all. Qed.

Lemma array_map_total f keys s :
  (∀ k s, k ∈ keys → is_Some (f k s)) → is_Some (array_map f keys s).
Proof.
  revert s. induction keys as [|k keys IH]; intros s Hf; [by eexists|].
  simpl. unfold bind.
  destruct (Hf k s) as [[[y|e] s1] ->]; [by constructor| |by eexists].
  destruct (IH s1) as [[[ys|e] s2] ->]; [|by eexists..].
  intros. apply Hf. by constructor.
Qed.

(** On an acyclic dependency graph [construct] returns. *)
Lemma construct_total rank :
  acyclic rank →
  ∀ fuel object s, rank object < fuel →
    is_Some (construct fuel object s).
Proof.
  intros Hrank. induction fuel as [|fuel IH]; intros object s Hlt; [lia|].
  destruct (instances (this s) !! object) as [v|] eqn:Hv.
  { rewrite (construct_S_cached _ _ _ v) by done. by eexists. }
  destruct (providers (this s) !! object) as [fn|] eqn:Hp.
  { rewrite (construct_S_provider _ _ _ fn) by done.
    unfold try_catch, constructViaProvider.
    cbv [bind ret throw gets modify log this_add call_provider].
    rewrite Hp. destruct (fn_call fn); by eexists. }
  rewrite construct_S_default by done.
  unfold try_catch. rewrite constructViaDependencies_split. unfold bind at 1.
  destruct (keys_of object s) as [[[keys|e] s1]|] eqn:Hk.
  - apply keys_of_Normal in Hk as [-> _]. unfold bind at 1.
    destruct (array_map_total (construct fuel) (declared object) s1)
      as [[[vs|e] s2] ->]; [|  |by eexists].
    + intros k s' Hk. apply IH. specialize (Hrank _ _ Hk). lia.
    + unfold instantiate, new.
      destruct (constructor_of object) as [body|]; [|by eexists].
      destruct (body vs); by eexists.
  - by eexists.
  - unfold keys_of, get_dependencies in Hk.
    destruct object; try done; simpl in Hk; run_M Hk;
      by destruct (obj_dependencies _) as [[]|].
Qed.

(** ** Counting *)

Lemma count_app p t1 t2 : count p (t1 ++ t2) = count p t1 + count p t2.
Proof. unfold count. by rewrite filter_app, length_app. Qed.

Lemma count_snoc p t ev :
  count p (t ++ [ev]) = count p t + (if p ev then 1 else 0).
Proof.
  rewrite count_app. f_equal. unfold count.
  destruct (p ev) eqn:Hp.
  - by rewrite filter_cons_True.
  - rewrite filter_cons_False; [done|]. by rewrite Hp.
Qed.

(** ** The provider path and the cache path, computed *)

Lemma construct_provider_Normal fuel key fn v s :
  instances (this s) !! key = None →
  providers (this s) !! key = Some fn →
  fn_call fn = Normal v →
  construct (S fuel) key s =
    Some (Normal v, cache key v (record (ECallProvider key fn) s)).
Proof.
  intros Hv Hp Hfn. rewrite (construct_S_provider _ _ _ fn) by done.
  unfold try_catch, constructViaProvider.
  cbv [bind ret throw gets modify log this_add call_provider].
  by rewrite Hp, Hfn.
Qed.

Lemma construct_provider_Throw fuel key fn e s :
  instances (this s) !! key = None →
  providers (this s) !! key = Some fn →
  fn_call fn = Throw e →
  construct (S fuel) key s =
    Some (Throw (VLoc (length (heap s))),
          raised key e (record (ECallProvider key fn) s)).
Proof.
  intros Hv Hp Hfn. rewrite (construct_S_provider _ _ _ fn) by done.
  unfold try_catch, constructViaProvider.
  cbv [bind ret throw gets modify log this_add call_provider].
  by rewrite Hp, Hfn.
Qed.

(** ** Claims *)

(** C1. Singleton caching: for a key whose declared-dependencies sequence is
    empty or absent and whose construction operation succeeds, [construct] on
    a fresh container returns a newly constructed instance (a new heap
    object, made by exactly one call of the constructor), and a second
    [construct] on the same container returns the identical instance and
    leaves the state, hence the call log, unchanged. *)
Theorem singleton_caching object body h t fuel fuel' :
  dependencies_of object = None ∨ dependencies_of object = Some (Normal []) →
  constructor_of object = Some body →
  body [] = Normal tt →
  ∃ s1,
    construct (S fuel) object {| this := new_DIContainer; heap := h; trace := t |}
      = Some (Normal (VLoc (length h)), s1) ∧
    h !! length h = None ∧
    heap s1 = h ++ [HInstance object []] ∧
    count (is_new object) (trace s1) = S (count (is_new object) t) ∧
    instances (this s1) !! object = Some (VLoc (length h)) ∧
    construct (S fuel') object s1 = Some (Normal (VLoc (length h)), s1).
Proof.
  intros Hd Hc Hb. set (s0 := {| this := new_DIContainer; heap := h; trace := t |}).
  assert (∃ t', keys_of object s0 =
            Some (Normal [], {| this := new_DIContainer; heap := h; trace := t' |}) ∧
          count (is_new object) t' = count (is_new object) t) as (t' & Hk & Ht').
  { destruct object; try done. simpl in Hd.
    unfold keys_of, get_dependencies.
    cbv [bind ret throw log modify call_dependencies].
    destruct Hd as [-> | ->].
    - by exists t.
    - exists (t ++ [ECallDependencies (VObj id)]). split; [done|].
      rewrite count_snoc. simpl. lia. }
  eexists. split_and!.
  - rewrite construct_S_default by done.
    unfold try_catch. rewrite constructViaDependencies_split.
    unfold bind at 1. rewrite Hk. simpl. unfold bind at 1. simpl.
    unfold instantiate, new. rewrite Hc.
    cbv [bind ret throw log modify alloc this_add]. rewrite Hb. simpl.
    reflexivity.
  - apply lookup_ge_None. lia.
  - done.
  - simpl. rewrite count_snoc. simpl.
    rewrite bool_decide_eq_true_2 by done. lia.
  - simpl. apply lookup_insert_eq.
  - apply construct_S_cached. simpl. apply lookup_insert_eq.
Qed.

(** C2. Resolution priority, cache first: [add(k, v)] followed by
    [construct(k)] returns [v] and leaves the whole state unchanged (so no
    provider and no constructor was called), whatever the container held
    before, and also when a provider is registered for [k] before or after
    the [add]. *)
Theorem cache_first key value fn (c : DIContainer) h t fuel :
  construct (S fuel) key {| this := add key value c; heap := h; trace := t |}
    = Some (Normal value, {| this := add key value c; heap := h; trace := t |}) ∧
  construct (S fuel) key
      {| this := add key value (provide key fn c); heap := h; trace := t |}
    = Some (Normal value,
            {| this := add key value (provide key fn c); heap := h; trace := t |}) ∧
  construct (S fuel) key
      {| this := provide key fn (add key value c); heap := h; trace := t |}
    = Some (Normal value,
            {| this := provide key fn (add key value c); heap := h; trace := t |}).
Proof.
  split_and!; apply construct_S_cached; simpl; apply lookup_insert_eq.
Qed.

(** C10. Undefined provider results are cached: when the provider that
    [construct(k)] reaches returns [undefined], [construct(k)] stores
    [undefined] under [k] and returns it, and every later [construct(k)]
    returns [undefined] from the cache without calling the provider again
    (the state, hence the call log, is unchanged): the membership test tells
    an entry whose value is [undefined] from a missing entry. *)
Theorem undefined_provider_result_cached key fn s fuel :
  instances (this s) !! key = None →
  providers (this s) !! key = Some fn →
  fn_call fn = Normal VUndefined →
  let s1 := cache key VUndefined (record (ECallProvider key fn) s) in
  construct (S fuel) key s = Some (Normal VUndefined, s1) ∧
  instances (this s1) !! key = Some VUndefined ∧
  count (is_provided key fn) (trace s1) = S (count (is_provided key fn) (trace s)) ∧
  ∀ fuel', construct (S fuel') key s1 = Some (Normal VUndefined, s1).
Proof.
  intros Hv Hp Hfn s1. split_and!.
  - by apply construct_provider_Normal.
  - simpl. apply lookup_insert_eq.
  - simpl. rewrite count_snoc. simpl.
    rewrite bool_decide_eq_true_2 by done. lia.
  - intros fuel'. apply construct_S_cached. simpl. apply lookup_insert_eq.
Qed.

(** C7. Error message formatting: the [ConstructionError] built for [x] with
    cause [e] carries [e] as its cause and the message ["Error constructing "]
    followed by: the literal ["null"] or ["undefined"] when [x] is [null] or
    [undefined]; else [x.name] when it is defined; else [x.toString()], which
    is ["[object Object]"] for a plain object and ["Symbol(desc)"] for a
    symbol. *)
Theorem error_message_format x e s :
  let h := heap s in
  new_ConstructionError x e s =
    Some (Normal (VLoc (length h)),
          push (HConstructionError (ConstructionError_message h x) e) s) ∧
  ConstructionError_message h x = "Error constructing " +:+ reference h x ∧
  (x = VNull → reference h x = "null") ∧
  (x = VUndefined → reference h x = "undefined") ∧
  (∀ name, x ≠ VNull → x ≠ VUndefined → get_name h x = Some name →
     reference h x = name) ∧
  (x ≠ VNull → x ≠ VUndefined → get_name h x = None →
     reference h x = toString h x) ∧
  (∀ id, x = VObj id → objects id = plain_object →
     reference h x = "[object Object]") ∧
  (∀ id desc, x = VSymbol id (Some desc) →
     reference h x = "Symbol(" +:+ desc +:+ ")") ∧
  (∀ id, x = VSymbol id None → reference h x = "Symbol()").
Proof.
  intros h. split_and!; try done.
  - by intros ->.
  - by intros ->.
  - intros name ?? Hn. unfold reference. rewrite Hn. by destruct x.
  - intros ?? Hn. unfold reference. rewrite Hn. by destruct x.
  - intros id -> Hid. unfold reference. simpl. by rewrite Hid.
  - by intros id desc ->.
  - by intros id ->.
Qed.

(** C8. Frame property: [construct] never changes the provider registry,
    whether it returns or throws; [add] writes the one cache entry of its key
    and [provide] the one registry entry of its key, whatever the maps held,
    and neither touches the other map, the heap or the call log. *)
Theorem frame_property :
  (∀ fuel key s r s',
     construct fuel key s = Some (r, s') →
     providers (this s') = providers (this s)) ∧
  (∀ key value c,
     instances (add key value c) !! key = Some value ∧
     (∀ k, k ≠ key → instances (add key value c) !! k = instances c !! k) ∧
     providers (add key value c) = providers c) ∧
  (∀ key fn c,
     providers (provide key fn c) !! key = Some fn ∧
     (∀ k, k ≠ key → providers (provide key fn c) !! k = providers c !! k) ∧
     instances (provide key fn c) = instances c) ∧
  (∀ key value s,
     this_add key value s = Some (Normal tt, cache key value s) ∧
     this (cache key value s) = add key value (this s) ∧
     heap (cache key value s) = heap s ∧
     trace (cache key value s) = trace s).
Proof.
  split_and!.
  - intros fuel key s r s' H%construct_eval%eval_extends. apply H.
  - intros. simpl. split_and!; [apply lookup_insert_eq| |done].
    intros. by apply lookup_insert_ne.
  - intros. simpl. split_and!; [apply lookup_insert_eq| |done].
    intros. by apply lookup_insert_ne.
  - done.
Qed.

(** ** Dependencies in declared order *)

Lemma resolves_array_map fuel keys s values s' :
  resolves fuel keys s values s' ↔
  array_map (construct fuel) keys s = Some (Normal values, s').
Proof.
  split.
  - induction 1 as [s|d keys s v s1 values s' Hd _ IH]; [done|].
    simpl. unfold bind. by rewrite Hd, IH.
  - revert s values. induction keys as [|d keys IH]; intros s values H.
    + simpl in H. unfold ret in H. simplify_eq. constructor.
    + simpl in H. inv_bind H. inv_bind H.
      unfold ret in H. simplify_eq. econstructor; eauto.
Qed.

Lemma array_map_stops fuel keys1 d keys2 s values s1 e s2 :
  resolves fuel keys1 s values s1 →
  construct fuel d s1 = Some (Throw e, s2) →
  array_map (construct fuel) (keys1 ++ d :: keys2) s = Some (Throw e, s2).
Proof.
  intros Hr Hd. induction Hr as [s|k keys s v s1 values s' Hk _ IH]; simpl.
  - unfold bind. by rewrite Hd.
  - unfold bind. rewrite Hk. by rewrite IH.
Qed.

(** C3. Dependency order: for a key that is resolved by default construction
    and declares [keys], [construct] resolves the keys by recursive calls of
    [construct], from left to right in the declared order, and calls the
    constructor with the resolved values as positional arguments in that
    order: if the keys resolve to [values], the next call logged is
    [new object(...values)], and the instance it returns is cached and
    returned; conversely every instance [construct] returns for such a key
    was built from the values its keys resolved to.  Resolution stops at the
    first key whose [construct] throws: the keys after it are not resolved
    and the constructor is not called. *)
Theorem dependency_order fuel object keys body s :
  instances (this s) !! object = None →
  providers (this s) !! object = None →
  dependencies_of object = Some (Normal keys) →
  constructor_of object = Some body →
  (∀ values s1,
     resolves fuel keys (record (ECallDependencies object) s) values s1 →
     ∃ r s',
       construct (S fuel) object s = Some (r, s') ∧
       trace s' = trace s1 ++
         [ENew object values
            match body values with
            | Normal _ => Normal (VLoc (length (heap s1)))
            | Throw e => Throw e
            end] ∧
       (body values = Normal tt →
          r = Normal (VLoc (length (heap s1))) ∧
          heap s' = heap s1 ++ [HInstance object values] ∧
          instances (this s') =
            <[object := VLoc (length (heap s1))]> (instances (this s1)))) ∧
  (∀ v s',
     construct (S fuel) object s = Some (Normal v, s') →
     ∃ values s1 a,
       resolves fuel keys (record (ECallDependencies object) s) values s1 ∧
       length values = length keys ∧
       v = VLoc a ∧ heap s' !! a = Some (HInstance object values) ∧
       body values = Normal tt) ∧
  (∀ keys1 d keys2 values s1 e s2,
     keys = keys1 ++ d :: keys2 →
     resolves fuel keys1 (record (ECallDependencies object) s) values s1 →
     construct fuel d s1 = Some (Throw e, s2) →
     construct (S fuel) object s =
       Some (Throw (VLoc (length (heap s2))), raised object e s2) ∧
     trace (raised object e s2) = trace s2).
Proof.
  intros Hv Hp Hd Hc.
  assert (keys_of object s =
    Some (Normal keys, record (ECallDependencies object) s)) as Hk.
  { destruct object; try done. simpl in Hd. unfold keys_of, get_dependencies.
    cbv [bind ret throw log modify call_dependencies]. by rewrite Hd. }
  split_and!.
  - intros values s1 Hr%resolves_array_map.
    rewrite construct_S_default by done.
    unfold try_catch. rewrite constructViaDependencies_split.
    unfold bind at 1. rewrite Hk. unfold bind at 1. rewrite Hr.
    unfold instantiate, new. rewrite Hc.
    cbv [bind ret throw log modify alloc this_add].
    destruct (body values) as [[]|e]; simpl; eauto 10.
    do 2 eexists. split_and!; [done..|]. done.
  - intros v s' H. rewrite construct_S_default in H by done.
    unfold try_catch in H. rewrite constructViaDependencies_split in H.
    unfold bind at 1 in H. rewrite Hk in H. unfold bind at 1 in H.
    destruct (array_map (construct fuel) keys _) as [[[values|e] s1]|] eqn:Hr;
      [| |done].
    + destruct (instantiate object values s1) as [[[v'|e] s2]|] eqn:Hi;
        simplify_eq.
      apply instantiate_inv in Hi
        as [(_&?&_)|[(body'&?&?&?&->)|(?&?&_&_&?&_)]]; simplify_eq.
      exists values, s1, (length (heap s1)). split_and!; try done.
      * by apply resolves_array_map.
      * apply resolves_array_map in Hr. clear -Hr.
        induction Hr; simpl; by f_equal.
      * simpl. by rewrite lookup_app_r, Nat.sub_diag.
    + simpl in H. by rewrite rethrow_Some in H.
  - intros keys1 d keys2 values s1 e s2 -> Hr Hthrow. split; [|done].
    rewrite construct_S_default by done.
    unfold try_catch. rewrite constructViaDependencies_split.
    unfold bind at 1. rewrite Hk. unfold bind at 1.
    by rewrite (array_map_stops _ _ _ _ _ _ _ _ _ Hr Hthrow).
Qed.

(** ** A provided key reaches the constructors that declare it *)

Lemma Forall_drop_snoc {A} (P : A → Prop) n t x :
  Forall P (drop n t) → P x → Forall P (drop n (t ++ [x])).
Proof.
  intros Ht Hx. rewrite drop_app. apply Forall_app. split; [done|].
  apply Forall_drop. by constructor.
Qed.

Lemma eval_serves_all key fn v n :
  fn_call fn = Normal v →
  let inv s := serves key fn v s ∧ Forall (receives key v) (drop n (trace s)) in
  (∀ object s r s', eval object s r s' → inv s → inv s') ∧
  (∀ object s r s', eval_body object s r s' → inv s → inv s') ∧
  (∀ keys s r s', eval_list keys s r s' → inv s → inv s').
Proof.
  intros Hfn inv. subst inv. unfold serves. apply eval_mutind.
  - done.
  - auto.
  - intros k s e s' _ _ IH Hs. by apply IH.
  - intros k s fn' r s' Hp H [[Hkp Hkv] Ht].
    apply (constructViaProvider_inv _ _ _ _ _ Hp) in H
      as [(v'&?&?&->)|(?&?&?&->)]; simpl.
    + split; [split; [done|]|].
      * destruct (decide (k = key)) as [->|Hne].
        -- right. rewrite lookup_insert_eq. congruence.
        -- by rewrite lookup_insert_ne.
      * by apply Forall_drop_snoc.
    + split; [done|]. by apply Forall_drop_snoc.
  - intros k s e s' _ H [Hs Ht].
    apply keys_of_inv in H as [[_ [[??]|(_&_&->)]]|(?&_&->&_)];
      simplify_eq; try done.
    split; [done|]. by apply Forall_drop_snoc.
  - intros k s keys s1 e s' _ H _ IH [Hs Ht]. apply IH.
    apply keys_of_Normal in H as [_ [->| ->]]; [done|].
    split; [done|]. by apply Forall_drop_snoc.
  - intros k s keys s1 vs s2 r s' Hp H Hl IH Hi [[Hkp Hkv] Ht].
    apply keys_of_Normal in H as [-> Hs1].
    destruct IH as [[Hkp2 Hkv2] Ht2].
    { destruct Hs1 as [->| ->]; [done|].
      split; [done|]. by apply Forall_drop_snoc. }
    assert (k ≠ key) as Hne by (intros ->; congruence).
    assert (∀ res, receives key v (ENew k vs res)) as Hnew.
    { intros res p args res' ? i Hi'. simplify_eq.
      apply eval_list_Normal_cached in Hl.
      destruct (Forall2_lookup_l _ _ _ _ _ Hl Hi') as (v' & Hv' & Hc).
      rewrite Hv'. destruct Hkv2; congruence. }
    apply instantiate_inv in Hi as [(_&_&->)|[(?&_&_&_&->)|(?&?&_&_&_&->)]];
      simpl.
    + done.
    + split; [split; [done|]|].
      * by rewrite lookup_insert_ne.
      * by apply Forall_drop_snoc.
    + split; [done|]. by apply Forall_drop_snoc.
  - done.
  - auto.
  - auto.
  - auto.
Qed.

(** C4, as the code has it.  Provider semantics: for a key [k] that has no
    cache entry and a provider [fn] that returns normally, after
    [provide(k, fn)], [construct(k)] calls [fn], stores its result under [k]
    and returns it; every later [construct(k)] returns that result from the
    cache and leaves the state unchanged, so [fn] was called exactly once;
    and in every state where [fn] is the provider of [k] and the cache holds
    nothing but [fn]'s result under [k], every constructor that [construct]
    calls receives [fn]'s result at each position where its class declares
    [k].  A provider that throws is not cached: [construct(k)] throws a
    [ConstructionError] with the thrown value as cause, [k] stays out of the
    cache, and the next [construct(k)] calls [fn] again.  For a key that is
    cached already, [construct(k)] returns the cached value and leaves the
    state unchanged: [fn] is not called. *)
Theorem provider_semantics key fn (c : DIContainer) h t fuel :
  let s := {| this := provide key fn c; heap := h; trace := t |} in
  (∀ v, instances c !! key = None → fn_call fn = Normal v →
     let s1 := cache key v (record (ECallProvider key fn) s) in
     construct (S fuel) key s = Some (Normal v, s1) ∧
     instances (this s1) !! key = Some v ∧
     count (is_provided key fn) (trace s1) = S (count (is_provided key fn) t) ∧
     (∀ fuel', construct (S fuel') key s1 = Some (Normal v, s1)) ∧
     serves key fn v s ∧ serves key fn v s1 ∧
     (∀ s0 fuel' p r s',
        serves key fn v s0 →
        construct fuel' p s0 = Some (r, s') →
        ∀ args res, ENew p args res ∈ new_events s0 s' →
          ∀ i, declared p !! i = Some key → args !! i = Some v)) ∧
  (∀ e, instances c !! key = None → fn_call fn = Throw e →
     let s1 := raised key e (record (ECallProvider key fn) s) in
     let s2 := raised key e (record (ECallProvider key fn) s1) in
     construct (S fuel) key s = Some (Throw (VLoc (length h)), s1) ∧
     heap s1 !! length h =
       Some (HConstructionError (ConstructionError_message h key) e) ∧
     instances (this s1) !! key = None ∧
     (∀ fuel',
        construct (S fuel') key s1 = Some (Throw (VLoc (S (length h))), s2)) ∧
     count (is_provided key fn) (trace s2) = S (S (count (is_provided key fn) t))) ∧
  (∀ v0, instances c !! key = Some v0 →
     construct (S fuel) key s = Some (Normal v0, s)).
Proof.
  intros s.
  assert (providers (this s) !! key = Some fn) as Hp
    by (simpl; apply lookup_insert_eq).
  split_and!.
  - intros v Hv Hfn s1. split_and!.
    + by apply construct_provider_Normal.
    + simpl. apply lookup_insert_eq.
    + simpl. rewrite count_snoc. simpl.
      rewrite bool_decide_eq_true_2 by done. lia.
    + intros fuel'. apply construct_S_cached. simpl. apply lookup_insert_eq.
    + split; [done|by left].
    + split; [done|]. right. simpl. apply lookup_insert_eq.
    + intros s0 fuel' p r s' Hs0 H%construct_eval args res Hin i Hi.
      destruct (eval_serves_all key fn v (length (trace s0)) Hfn) as (He & _ & _).
      destruct (He _ _ _ _ H) as [_ Hall].
      { split; [done|]. rewrite drop_all. constructor. }
      rewrite Forall_forall in Hall. by eapply (Hall _ Hin).
  - intros e Hv Hfn s1 s2. split_and!.
    + by apply construct_provider_Throw.
    + simpl. by rewrite lookup_app_r, Nat.sub_diag.
    + done.
    + intros fuel'.
      rewrite (construct_provider_Throw fuel' key fn e s1) by done.
      subst s1 s2. simpl. by rewrite length_app, Nat.add_1_r.
    + simpl. rewrite !count_snoc. simpl.
      rewrite bool_decide_eq_true_2 by done. lia.
  - intros v0 Hv0. by apply construct_S_cached.
Qed.

(** ** At most one instance per key *)

Lemma built_once_same s s' :
  trace s' = trace s → instances (this s) ⊆ instances (this s') →
  built_once s → built_once s'.
Proof.
  intros Ht Hi Hs key. rewrite Ht. destruct (Hs key) as [? Hnone].
  split; [done|]. intros Hk. apply Hnone.
  destruct (instances (this s) !! key) as [v|] eqn:Hv; [|done].
  by rewrite (lookup_weaken _ _ _ _ Hv Hi) in Hk.
Qed.

Lemma built_once_record ev s :
  (∀ key, is_built key ev = false) → built_once s → built_once (record ev s).
Proof.
  intros Hev Hs key. simpl. rewrite count_snoc, Hev, Nat.add_0_r. apply Hs.
Qed.

Lemma built_once_instantiate object args s r s' :
  instances (this s) !! object = None →
  instantiate object args s = Some (r, s') →
  built_once s → built_once s'.
Proof.
  intros Hv Hi Hs.
  apply instantiate_inv in Hi as [(_&_&->)|[(?&_&_&_&->)|(?&?&_&_&_&->)]].
  - by eapply built_once_same.
  - intros key. simpl. rewrite count_snoc. simpl.
    destruct (Hs key) as [Hle Hnone].
    destruct (decide (object = key)) as [->|Hne].
    + rewrite bool_decide_eq_true_2 by done. rewrite lookup_insert_eq.
      rewrite (Hnone Hv). split; [lia|done].
    + rewrite bool_decide_eq_false_2 by done. rewrite lookup_insert_ne by done.
      rewrite Nat.add_0_r. done.
  - by apply built_once_record.
Qed.

Lemma eval_built_once_all :
  (∀ object s r s', eval object s r s' → built_once s → built_once s') ∧
  (∀ object s r s', eval_body object s r s' →
     instances (this s) !! object = None → built_once s → built_once s') ∧
  (∀ keys s r s', eval_list keys s r s' → built_once s → built_once s').
Proof.
  apply eval_mutind.
  - done.
  - auto.
  - intros k s e s' Hv _ IH Hs. eapply built_once_same; [..|by apply IH]; done.
  - intros k s fn r s' Hp H Hv Hs.
    apply (constructViaProvider_inv _ _ _ _ _ Hp) in H
      as [(?&?&?&->)|(?&?&?&->)].
    + eapply built_once_same; [| |by apply (built_once_record (ECallProvider k fn))];
        [done|]. simpl. by apply insert_subseteq.
    + by apply built_once_record.
  - intros k s e s' _ H _ Hs.
    apply keys_of_inv in H as [[_ [[??]|(_&_&->)]]|(?&_&->&_)];
      simplify_eq; [by eapply built_once_same|by apply built_once_record].
  - intros k s keys s1 e s' _ H _ IH _ Hs. apply IH.
    apply keys_of_Normal in H as [_ [->| ->]]; [done|by apply built_once_record].
  - intros k s keys s1 vs s2 r s' Hp H Hl IH Hi Hv Hs.
    apply keys_of_Normal in H as [Hkeys Hs1].
    assert (instances (this s2) !! k = None) as Hv2.
    { eapply eval_list_keeps_uncached; [| |done..];
        by destruct Hs1 as [->| ->]. }
    eapply built_once_instantiate; [done..|]. apply IH.
    destruct Hs1 as [->| ->]; [done|by apply built_once_record].
  - done.
  - auto.
  - auto.
  - auto.
Qed.

Lemma run_built_once fuel calls s s' :
  run fuel calls s = Some s' → built_once s → built_once s'.
Proof.
  revert s. induction calls as [|[key value|key fn|object] calls IH];
    intros s H Hs; simpl in H.
  - by simplify_eq.
  - apply (IH _ H). intros k. simpl. destruct (Hs k) as [? Hnone].
    split; [done|]. intros Hk. apply Hnone.
    destruct (decide (key = k)) as [->|Hne].
    + by rewrite lookup_insert_eq in Hk.
    + by rewrite lookup_insert_ne in Hk.
  - by apply (IH _ H).
  - destruct (construct fuel object s) as [[r s1]|] eqn:Hc; [|done].
    apply (IH _ H). eapply (proj1 eval_built_once_all); [|done].
    by eapply construct_eval.
Qed.

(** ** At most one constructor call per key and call of [construct] *)

Lemma called_once_refl key s failed : called_once key s failed s.
Proof. unfold called_once. split_and!; [done|lia|lia|done]. Qed.

Lemma called_once_same key s failed s1 failed' s' :
  trace s' = trace s1 → instances (this s') = instances (this s1) →
  (failed = true → failed' = true) →
  called_once key s failed s1 → called_once key s failed' s'.
Proof.
  unfold called_once. intros -> -> Hf (?&?&Hc&?). split_and!; try done.
  intros Hlt. destruct (Hc Hlt); auto.
Qed.

Lemma called_once_seq key s s1 failed s' :
  extends s s1 → extends s1 s' →
  called_once key s false s1 → called_once key s1 failed s' →
  called_once key s failed s'.
Proof.
  unfold called_once. intros Hext1 Hext2 (?&?&Hc1&Hk1) (?&?&Hc2&Hk2).
  assert (count (is_new key) (trace s) < count (is_new key) (trace s1) →
          is_Some (instances (this s1) !! key)) as Hc1'.
  { intros Hlt. by destruct (Hc1 Hlt). }
  destruct (decide (count (is_new key) (trace s) <
                    count (is_new key) (trace s1))) as [Hlt|Hge].
  - specialize (Hk2 (Hc1' Hlt)). split_and!; [lia..| |].
    + intros _. right. eapply extends_is_cached; [done|]. by apply Hc1'.
    + intros Hk. specialize (Hk1 Hk). lia.
  - split_and!; [lia..| |].
    + intros Hlt. apply Hc2. lia.
    + intros Hk. rewrite Hk2, Hk1; [done..|].
      by eapply extends_is_cached.
Qed.

Lemma called_once_count_same key s failed s' :
  count (is_new key) (trace s') = count (is_new key) (trace s) →
  called_once key s failed s'.
Proof. unfold called_once. intros ->. split_and!; [done|lia|lia|done]. Qed.

Lemma called_once_instantiate key object args s r s' :
  instances (this s) !! object = None →
  instantiate object args s = Some (r, s') →
  called_once key s (is_Throw r) s'.
Proof.
  intros Hv Hi.
  apply instantiate_inv in Hi as [(_&_&->)|[(?&_&_&->&->)|(?&?&_&_&->&->)]].
  - by apply called_once_count_same.
  - destruct (decide (object = key)) as [->|Hne].
    + unfold called_once. simpl. rewrite count_snoc. simpl.
      rewrite bool_decide_eq_true_2 by done. rewrite lookup_insert_eq.
      split_and!; [lia|lia|eauto|]. intros [? ?]. congruence.
    + apply called_once_count_same. simpl. rewrite count_snoc. simpl.
      rewrite bool_decide_eq_false_2 by done. lia.
  - destruct (decide (object = key)) as [->|Hne].
    + unfold called_once. simpl. rewrite count_snoc. simpl.
      rewrite bool_decide_eq_true_2 by done.
      split_and!; [lia|lia|eauto|]. intros [? ?]. congruence.
    + apply called_once_count_same. simpl. rewrite count_snoc. simpl.
      rewrite bool_decide_eq_false_2 by done. lia.
Qed.

Lemma keys_of_count_same key object s r s' :
  keys_of object s = Some (r, s') →
  count (is_new key) (trace s') = count (is_new key) (trace s).
Proof.
  intros H.
  apply keys_of_inv in H as [[_ [[??]|(_&_&->)]]|(?&_&->&_)];
    simplify_eq; [done..|].
  simpl. rewrite count_snoc. simpl. lia.
Qed.

Lemma keys_of_extends object s r s' :
  keys_of object s = Some (r, s') → extends s s'.
Proof.
  intros H.
  apply keys_of_inv in H as [[_ [[??]|(_&_&->)]]|(?&_&->&_)];
    simplify_eq; solve_extends.
Qed.

Lemma eval_called_once_all key :
  (∀ object s r s', eval object s r s' →
     called_once key s (is_Throw r) s') ∧
  (∀ object s r s', eval_body object s r s' →
     instances (this s) !! object = None →
     called_once key s (is_Throw r) s') ∧
  (∀ keys s r s', eval_list keys s r s' →
     called_once key s (is_Throw r) s').
Proof.
  apply eval_mutind.
  - intros. apply called_once_refl.
  - auto.
  - intros k s e s' Hv _ IH. eapply called_once_same; [..|by apply IH]; done.
  - intros k s fn r s' Hp H Hv. apply called_once_count_same.
    apply (constructViaProvider_inv _ _ _ _ _ Hp) in H
      as [(?&?&?&->)|(?&?&?&->)]; simpl; rewrite count_snoc; simpl; lia.
  - intros k s e s' _ H _. apply called_once_count_same.
    by eapply keys_of_count_same.
  - intros k s keys s1 e s' _ H Hl IH _.
    eapply called_once_seq; [by eapply keys_of_extends
                            |by eapply eval_list_extends| |done].
    apply called_once_count_same. by eapply keys_of_count_same.
  - intros k s keys s1 vs s2 r s' Hp H Hl IH Hi Hv.
    assert (instances (this s2) !! k = None) as Hv2.
    { apply keys_of_Normal in H as [Hkeys Hs1].
      eapply eval_list_keeps_uncached; [| |done..];
        by destruct Hs1 as [->| ->]. }
    assert (extends s2 s') as Hext.
    { apply instantiate_inv in Hi
        as [(_&_&->)|[(?&_&_&_&->)|(?&?&_&_&_&->)]]; solve_extends. }
    eapply called_once_seq; [by eapply keys_of_extends| |
      apply called_once_count_same; by eapply keys_of_count_same|].
    { etrans; [by eapply eval_list_extends|done]. }
    eapply called_once_seq; [by eapply eval_list_extends|done|done|].
    by eapply called_once_instantiate.
  - intros. apply called_once_refl.
  - auto.
  - intros x xs s y s1 e s' Hx IHx Hxs IH.
    eapply called_once_seq; [by eapply eval_extends
                            |by eapply eval_list_extends|done..].
  - intros x xs s y s1 ys s' Hx IHx Hxs IH.
    eapply called_once_seq; [by eapply eval_extends
                            |by eapply eval_list_extends|done..].
Qed.

(** C5. At-most-once default construction: whatever sequence of [add],
    [provide] and [construct] calls a container has seen since it was
    created, for every key at most one instance was built by the key's
    constructor; and within one call of [construct] the constructor of a key
    is called at most once, and not at all when the key is already cached,
    however often the key occurs in the dependency graph. *)
Theorem at_most_once_default_construction :
  (∀ fuel calls s,
     run fuel calls (start new_DIContainer) = Some s →
     ∀ key, count (is_built key) (trace s) ≤ 1) ∧
  (∀ fuel object s r s',
     construct fuel object s = Some (r, s') →
     ∀ key,
       count (is_new key) (trace s') ≤ S (count (is_new key) (trace s)) ∧
       (count (is_new key) (trace s) < count (is_new key) (trace s') →
          is_Throw r = true ∨ is_Some (instances (this s') !! key)) ∧
       (is_Some (instances (this s) !! key) →
          count (is_new key) (trace s') = count (is_new key) (trace s))).
Proof.
  split.
  - intros fuel calls s H key.
    assert (built_once (start new_DIContainer)) as H0.
    { intros k. simpl. unfold count. simpl. split; [lia|done]. }
    apply (run_built_once _ _ _ _ H H0).
  - intros fuel object s r s' H%construct_eval key.
    destruct (proj1 (eval_called_once_all key) _ _ _ _ H) as (?&?&?&?).
    done.
Qed.

(** ** Failures are wrapped, level by level *)

Lemma last_drop_snoc {A} n (t : list A) x :
  n ≤ length t → last (drop n (t ++ [x])) = Some x.
Proof. intros Hn. by rewrite drop_app_le, last_snoc. Qed.

Lemma extends_lengths s s' :
  extends s s' →
  length (heap s) ≤ length (heap s') ∧ length (trace s) ≤ length (trace s').
Proof. intros (_&?&?&_). split; by apply prefix_length. Qed.

Lemma own_failure_mono h h' registry t m key a cause :
  h `prefix_of` h' →
  own_failure h registry t m key a cause →
  own_failure h' registry t m key a cause.
Proof.
  intros Hh [?|[?|[?|(?&?&a0&msg&?&?&?&Ha)]]]; unfold own_failure; eauto 10.
  right. right. right. split_and!; [done..|]. exists a0, msg.
  split_and!; [done..|]. by eapply prefix_lookup_Some.
Qed.

Lemma lookup_take_prefix (h h' : list HeapObj) a o :
  h `prefix_of` h' → h !! a = Some o →
  h' !! a = Some o ∧ take a h' = take a h.
Proof.
  intros [k ->] Ha. split; [by apply lookup_app_l_Some|].
  apply lookup_lt_Some in Ha. rewrite take_app_le; [done|lia].
Qed.

Lemma raised_for_mono h h' registry t m key e :
  h `prefix_of` h' →
  raised_for h registry t m key e → raised_for h' registry t m key e.
Proof.
  intros Hh. induction 1 as [key a cause Hm Ha Hown
                            |key a d a0 Ha Haa Hp Hd _ IH].
  - destruct (lookup_take_prefix _ _ _ _ Hh Ha) as [Ha' Ht].
    eapply raised_own; [done|by rewrite Ht|by eapply own_failure_mono].
  - destruct (lookup_take_prefix _ _ _ _ Hh Ha) as [Ha' Ht].
    eapply raised_dependency; [by rewrite Ht|done..].
Qed.

Lemma raised_lookup (h : list HeapObj) k e :
  (h ++ [HConstructionError (ConstructionError_message h k) e])
    !! length h =
  Some (HConstructionError
          (ConstructionError_message
             (take (length h)
                (h ++ [HConstructionError (ConstructionError_message h k) e]))
             k) e).
Proof. by rewrite take_app_length, lookup_app_r, Nat.sub_diag. Qed.

Lemma eval_raised_for_all registry n m :
  (∀ object s r s', eval object s r s' →
     providers (this s) = registry →
     n ≤ length (trace s) → m ≤ length (heap s) →
     ∀ e, r = Throw e →
       ∃ a, e = VLoc a ∧ length (heap s') = S a ∧
         raised_for (heap s') registry (drop n (trace s')) m object e) ∧
  (∀ object s r s', eval_body object s r s' →
     providers (this s) = registry →
     n ≤ length (trace s) → m ≤ length (heap s) →
     ∀ e, r = Throw e →
       own_failure (heap s') registry (drop n (trace s')) m object
         (length (heap s')) e ∨
       (registry !! object = None ∧
        ∃ d a0, d ∈ declared object ∧ e = VLoc a0 ∧
          length (heap s') = S a0 ∧
          raised_for (heap s') registry (drop n (trace s')) m d e)) ∧
  (∀ keys s r s', eval_list keys s r s' →
     providers (this s) = registry →
     n ≤ length (trace s) → m ≤ length (heap s) →
     ∀ e, r = Throw e →
       ∃ d a0, d ∈ keys ∧ e = VLoc a0 ∧ length (heap s') = S a0 ∧
         raised_for (heap s') registry (drop n (trace s')) m d e).
Proof.
  apply eval_mutind.
  - done.
  - done.
  - intros k s e s' Hv Hb IH Hreg Hn Hm e' ?. simplify_eq.
    exists (length (heap s')). split; [done|].
    split; [simpl; rewrite length_app; simpl; lia|].
    apply (proj1 (proj2 eval_extends_all)), extends_lengths in Hb as [Hh _].
    assert (heap s' `prefix_of` heap (raised k e s'))
      as Hpre by (by apply prefix_app_r).
    destruct (IH eq_refl Hn Hm e eq_refl)
      as [Hown|(Hp & d & a0 & Hd & -> & Ha0 & Hr)].
    + eapply raised_own; [lia|apply raised_lookup|].
      by eapply own_failure_mono.
    + eapply raised_dependency;
        [apply raised_lookup|done..|by eapply raised_for_mono].
  - intros k s fn r s' Hp H Hreg Hn Hm e ->.
    apply (constructViaProvider_inv _ _ _ _ _ Hp) in H
      as [(?&?&?&->)|(?&?&?&->)]; simplify_eq.
    left. left. exists fn. split_and!; [done..|]. by apply last_drop_snoc.
  - intros k s e s' Hp H Hreg Hn Hm e' ?. simplify_eq. left.
    apply keys_of_inv in H as [[_ [[??]|(Hk&?&->)]]|(body&?&->&?)];
      simplify_eq.
    + right. right. right. split_and!; [done|by destruct Hk as [->| ->]|].
      do 2 eexists. split_and!; [done| |done|].
      * simpl. rewrite length_app. simpl. lia.
      * simpl. by rewrite lookup_app_r, Nat.sub_diag.
    + right. left. split_and!; [done| |by apply last_drop_snoc].
      by destruct body; simplify_eq.
  - intros k s keys s1 e s' Hp H _ IH Hreg Hn Hm e' ?. simplify_eq. right.
    split; [done|].
    pose proof (keys_of_extends _ _ _ _ H) as Hx.
    pose proof (extends_lengths _ _ Hx) as [??].
    apply keys_of_Normal in H as [-> _].
    apply IH; [by rewrite (proj1 Hx)|lia|lia|done].
  - intros k s keys s1 vs s2 r s' Hp H Hl _ Hi Hreg Hn Hm e ->. left.
    pose proof (extends_lengths _ _ (keys_of_extends _ _ _ _ H)) as [??].
    pose proof (extends_lengths _ _ (eval_list_extends _ _ _ _ Hl)) as [??].
    apply instantiate_inv in Hi as [(?&?&->)|[(?&_&_&?&_)|(?&?&?&?&?&->)]];
      simplify_eq.
    + right. right. right. split_and!; [done..|].
      do 2 eexists. split_and!; [done| |lia|].
      * simpl. rewrite length_app. simpl. lia.
      * simpl. by rewrite lookup_app_r, Nat.sub_diag.
    + right. right. left. split; [done|]. do 2 eexists.
      split_and!; [done..|]. apply last_drop_snoc. lia.
  - done.
  - intros x xs s e s' _ IH Hreg Hn Hm e' [= <-].
    destruct (IH Hreg Hn Hm e eq_refl) as (a & -> & ? & ?).
    exists x, a. split_and!; [by constructor|done..].
  - intros x xs s y s1 e s' Hx _ _ IH Hreg Hn Hm e' [= <-].
    pose proof (eval_extends _ _ _ _ Hx) as Hext.
    pose proof (extends_lengths _ _ Hext) as [??].
    destruct (IH (eq_trans (proj1 Hext) Hreg) ltac:(lia) ltac:(lia) e eq_refl)
      as (d & a0 & Hd & ? & ? & Hr).
    exists d, a0. split_and!; [by constructor|done..].
  - done.
Qed.

Lemma count_objects_snoc p h o :
  count_objects p (h ++ [o]) = count_objects p h + (if p o then 1 else 0).
Proof.
  unfold count_objects. rewrite filter_app, length_app. f_equal.
  destruct (p o) eqn:Hp.
  - by rewrite filter_cons_True.
  - rewrite filter_cons_False; [done|]. by rewrite Hp.
Qed.

Lemma fails_once_refl s : fails_once s false s.
Proof. unfold fails_once. split_and!; [lia|done..]. Qed.

Lemma fails_once_seq s s1 failed s' :
  fails_once s false s1 → fails_once s1 failed s' → fails_once s failed s'.
Proof.
  unfold fails_once. intros (?&?&?&Hfst) (?&?&?&Hsnd).
  split_and!; [lia..|]. intros Hf. by rewrite (Hsnd Hf), (Hfst eq_refl).
Qed.

Lemma fails_once_same s s' :
  trace s' = trace s → heap s' = heap s → fails_once s false s'.
Proof. unfold fails_once. intros -> ->. split_and!; [lia|done..]. Qed.

Lemma fails_once_record ev s :
  fails_once s (is_failure ev) (record ev s).
Proof.
  unfold fails_once. simpl. rewrite count_snoc.
  split_and!; [destruct (is_failure ev); lia|lia|done..].
Qed.

Lemma fails_once_TypeError message s :
  fails_once s true (push (HTypeError message) s).
Proof.
  unfold fails_once. simpl. rewrite count_objects_snoc. simpl.
  split_and!; [lia..|done].
Qed.

Lemma fails_once_raised object e s s' :
  fails_once s true s' → fails_once s true (raised object e s').
Proof.
  unfold fails_once. simpl. rewrite count_objects_snoc. simpl.
  intros (?&?&?&_). split_and!; [lia..|done].
Qed.

Lemma fails_once_instance object args ev s :
  is_failure ev = false →
  fails_once s false (record ev (push (HInstance object args) s)).
Proof.
  intros Hev. unfold fails_once. simpl.
  rewrite count_snoc, !count_objects_snoc, Hev. simpl.
  split_and!; [lia..|]. intros _. lia.
Qed.

Lemma keys_of_fails_once object s r s' :
  keys_of object s = Some (r, s') → fails_once s (is_Throw r) s'.
Proof.
  intros H.
  apply keys_of_inv in H as [[_ [[??]|(_&?&->)]]|(body&Hb&->&?)]; simplify_eq.
  - apply fails_once_refl.
  - apply fails_once_TypeError.
  - pose proof (fails_once_record (ECallDependencies object) s) as Hf.
    simpl in Hf. rewrite Hb in Hf. by destruct body.
Qed.

Lemma instantiate_fails_once object args s r s' :
  instantiate object args s = Some (r, s') → fails_once s (is_Throw r) s'.
Proof.
  intros Hi.
  apply instantiate_inv in Hi as [(_&->&->)|[(?&_&_&->&->)|(?&?&_&_&->&->)]].
  - apply fails_once_TypeError.
  - eapply (fails_once_seq _
      (record (ENew object args (Normal (VLoc (length (heap s)))))
         (push (HInstance object args) s)));
      [by apply fails_once_instance|by apply fails_once_same].
  - apply (fails_once_record (ENew _ _ (Throw _))).
Qed.

Lemma eval_fails_once_all :
  (∀ object s r s', eval object s r s' → fails_once s (is_Throw r) s') ∧
  (∀ object s r s', eval_body object s r s' → fails_once s (is_Throw r) s') ∧
  (∀ keys s r s', eval_list keys s r s' → fails_once s (is_Throw r) s').
Proof.
  apply eval_mutind.
  - intros. apply fails_once_refl.
  - auto.
  - intros k s e s' _ _ IH. by apply fails_once_raised.
  - intros k s fn r s' Hp H.
    pose proof (fails_once_record (ECallProvider k fn) s) as Hf. simpl in Hf.
    apply (constructViaProvider_inv _ _ _ _ _ Hp) in H
      as [(?&Hfn&->&->)|(?&Hfn&->&->)]; rewrite Hfn in Hf; [|done].
    eapply fails_once_seq; [done|]. by apply fails_once_same.
  - intros k s e s' _ H. by apply keys_of_fails_once in H.
  - intros k s keys s1 e s' _ H _ IH.
    eapply fails_once_seq; [|done]. by apply keys_of_fails_once in H.
  - intros k s keys s1 vs s2 r s' _ H _ IH Hi.
    eapply fails_once_seq; [by apply keys_of_fails_once in H|].
    eapply fails_once_seq; [done|]. by eapply instantiate_fails_once.
  - intros. apply fails_once_refl.
  - auto.
  - intros. by eapply fails_once_seq.
  - intros. by eapply fails_once_seq.
Qed.

(** C6. Nested error wrapping: what [construct(k)] throws is a
    [ConstructionError] created by this call, the last object it created,
    that names [k] and wraps the original failure level by level.  Its cause
    is the failure of one of [k]'s own operations (the value that [k]'s
    provider, [dependencies] method or constructor threw in the last call
    made, or the [TypeError] that the engine raised just before because [k]
    is not a constructor), or, when a declared dependency failed, the
    [ConstructionError] raised for that dependency, created just before and
    of the same shape one level down.  Nothing is swallowed or retried: a
    call that returns normally saw no call into the host program throw and
    created no error object, neither a [TypeError] nor a
    [ConstructionError]; a call that throws saw exactly one failure (a
    throwing call into the host program or a [TypeError] of the engine). *)
Theorem nested_error_wrapping fuel key s r s' :
  construct fuel key s = Some (r, s') →
  (∀ e, r = Throw e →
     ∃ a, e = VLoc a ∧ length (heap s') = S a ∧
       raised_for (heap s') (providers (this s)) (new_events s s')
         (length (heap s)) key e) ∧
  (∀ v, r = Normal v →
     count is_failure (trace s') = count is_failure (trace s) ∧
     count_objects is_error (heap s') = count_objects is_error (heap s)) ∧
  (∀ e, r = Throw e →
     count is_failure (trace s') + count_objects is_TypeError (heap s') =
       S (count is_failure (trace s) + count_objects is_TypeError (heap s))) ∧
  count is_failure (trace s') ≤ S (count is_failure (trace s)).
Proof.
  intros H%construct_eval. split_and!.
  - intros e ->.
    by eapply (proj1 (eval_raised_for_all (providers (this s))
                        (length (trace s)) (length (heap s)))).
  - intros v ->. apply (proj1 eval_fails_once_all) in H.
    destruct H as (?&?&?&He). simpl in *. split; [lia|by apply He].
  - intros e ->. apply (proj1 eval_fails_once_all) in H.
    destruct H as (?&_). simpl in *. lia.
  - apply (proj1 eval_fails_once_all) in H.
    destruct H as (?&?&?&_). destruct (is_Throw r); lia.
Qed.

(** ** What a call produced stays in the cache *)

Lemma elem_of_drop_singleton {A} n (x y : A) : x ∈ drop n [y] → x = y.
Proof.
  destruct n as [|n]; simpl.
  - by intros ->%list_elem_of_singleton.
  - rewrite drop_nil. by intros ?%elem_of_nil.
Qed.

Lemma keeps_produced_same before n s s' :
  trace s' = trace s → instances (this s') = instances (this s) →
  keeps_produced before n s → keeps_produced before n s'.
Proof. unfold keeps_produced. by intros -> ->. Qed.

Lemma keeps_produced_record before n ev s :
  (∀ d v, ¬ yields d v ev) →
  keeps_produced before n s → keeps_produced before n (record ev s).
Proof.
  intros Hev [Hsub Hs]. split; [done|]. intros ev' d v Hin Hy. simpl in *.
  rewrite drop_app in Hin. apply elem_of_app in Hin as [Hin|Hin]; [by eapply Hs|].
  apply elem_of_drop_singleton in Hin as ->. by destruct (Hev d v).
Qed.

Lemma keeps_produced_cache before n key value ev s :
  instances (this s) !! key = None →
  (∀ d v, yields d v ev → d = key ∧ v = value) →
  keeps_produced before n s →
  keeps_produced before n (cache key value (record ev s)).
Proof.
  intros Hkey Hev [Hsub Hs]. split.
  - simpl. etrans; [done|]. by apply insert_subseteq.
  - intros ev' d v Hin Hy. simpl in *.
    rewrite drop_app in Hin. apply elem_of_app in Hin as [Hin|Hin].
    + destruct (Hs _ _ _ Hin Hy) as [Hd ?]. split; [|done].
      rewrite lookup_insert_ne; [done|]. intros ->. congruence.
    + apply elem_of_drop_singleton in Hin as ->.
      destruct (Hev _ _ Hy) as [-> ->]. rewrite lookup_insert_eq.
      split; [done|]. by eapply lookup_weaken_None.
Qed.

Lemma eval_keeps_produced_all before n :
  (∀ object s r s', eval object s r s' →
     keeps_produced before n s → keeps_produced before n s') ∧
  (∀ object s r s', eval_body object s r s' →
     instances (this s) !! object = None →
     keeps_produced before n s → keeps_produced before n s') ∧
  (∀ keys s r s', eval_list keys s r s' →
     keeps_produced before n s → keeps_produced before n s').
Proof.
  apply eval_mutind.
  - done.
  - auto.
  - intros k s e s' Hv _ IH Hs. eapply keeps_produced_same; [..|by apply IH]; done.
  - intros k s fn r s' Hp H Hv Hs.
    apply (constructViaProvider_inv _ _ _ _ _ Hp) in H
      as [(v&Hfn&->&->)|(e&Hfn&->&->)].
    + apply keeps_produced_cache; [done| |done].
      intros d v' [-> Hd]. split; [done|]. congruence.
    + apply keeps_produced_record; [|done].
      intros d v [_ Hd]. congruence.
  - intros k s e s' _ H _ Hs.
    apply keys_of_inv in H as [[_ [[??]|(_&_&->)]]|(?&_&->&_)];
      simplify_eq; [by eapply keeps_produced_same|].
    apply keeps_produced_record; [|done]. by intros d v [].
  - intros k s keys s1 e s' _ H _ IH _ Hs. apply IH.
    apply keys_of_Normal in H as [_ [->| ->]]; [done|].
    apply keeps_produced_record; [|done]. by intros d v [].
  - intros k s keys s1 vs s2 r s' Hp H Hl IH Hi Hv Hs.
    apply keys_of_Normal in H as [Hkeys Hs1].
    assert (instances (this s2) !! k = None) as Hv2.
    { eapply eval_list_keeps_uncached; [| |done..];
        by destruct Hs1 as [->| ->]. }
    assert (keeps_produced before n s2) as Hs2.
    { apply IH. destruct Hs1 as [->| ->]; [done|].
      apply keeps_produced_record; [|done]. by intros d v []. }
    apply instantiate_inv in Hi as [(_&_&->)|[(?&_&_&_&->)|(?&?&_&_&_&->)]].
    + by eapply keeps_produced_same.
    + apply (keeps_produced_cache _ _ _ _ _ (push _ s2)); [done| |].
      * by intros d v [-> ->].
      * by eapply keeps_produced_same.
    + apply keeps_produced_record; [|done]. by intros d v [].
  - done.
  - auto.
  - auto.
  - auto.
Qed.

(** C9. No rollback on failure: when [construct(k)] throws, [k] has no cache
    entry afterwards, so the next [construct(k)] runs the provider or the
    default construction again; every entry the cache had is still there;
    and every value that was produced during the failed call, by a
    constructor or by a provider, for a key [d], is now cached under [d],
    which was not cached before, and is what later calls of [construct(d)]
    return without changing the state. *)
Theorem no_rollback_on_failure fuel key s e s' :
  construct fuel key s = Some (Throw e, s') →
  instances (this s') !! key = None ∧
  (∀ fuel',
     construct (S fuel') key s' =
       try_catch
         (match providers (this s') !! key with
          | Some _ => constructViaProvider key
          | None => constructViaDependencies (construct fuel') key
          end)
         (λ e, let! err := new_ConstructionError key e in throw err) s') ∧
  instances (this s) ⊆ instances (this s') ∧
  (∀ ev d v,
     ev ∈ new_events s s' → yields d v ev →
     instances (this s) !! d = None ∧
     instances (this s') !! d = Some v ∧
     ∀ fuel', construct (S fuel') d s' = Some (Normal v, s')).
Proof.
  intros H%construct_eval.
  pose proof (eval_Throw_uncached _ _ _ _ H) as Hkey.
  split_and!.
  - done.
  - intros fuel'. destruct (providers (this s') !! key) as [fn|] eqn:Hp.
    + by apply (construct_S_provider _ _ _ fn).
    + by apply construct_S_default.
  - by eapply eval_cache_mono.
  - intros ev d v Hin Hy.
    destruct (proj1 (eval_keeps_produced_all (instances (this s))
                (length (trace s))) _ _ _ _ H) as [_ Hall].
    { split; [done|]. rewrite drop_all. by intros ??? ?%elem_of_nil. }
    destruct (Hall _ _ _ Hin Hy) as [Hd Hb]. split_and!; [done..|].
    intros fuel'. by apply construct_S_cached.
Qed.

(** * Further properties of the container *)

(** X1. Every key is a singleton: when [construct(key)] returns a value, by
    whichever path, the value is cached under [key], and every later
    [construct(key)] returns the same value and leaves the state, hence the
    call log, as it is. *)
Theorem resolved_key_is_singleton fuel key s v s' :
  construct fuel key s = Some (Normal v, s') →
  instances (this s') !! key = Some v ∧
  ∀ fuel', construct (S fuel') key s' = Some (Normal v, s').
Proof.
  intros H%construct_eval%eval_Normal_cached. split; [done|].
  intros fuel'. by apply construct_S_cached.
Qed.

(** X2. [construct] only adds: whether it returns or throws, every cache
    entry is still there with the value it had (nothing is evicted or
    replaced), and the heap and the call log have only grown at their end. *)
Theorem construct_only_grows fuel key s r s' :
  construct fuel key s = Some (r, s') →
  instances (this s) ⊆ instances (this s') ∧
  (∀ k v, instances (this s) !! k = Some v → instances (this s') !! k = Some v) ∧
  heap s `prefix_of` heap s' ∧
  trace s `prefix_of` trace s'.
Proof.
  intros H%construct_eval.
  pose proof (eval_cache_mono _ _ _ _ H) as Hsub.
  destruct (eval_extends _ _ _ _ H) as (_ & Hh & Ht & _).
  split_and!; [done| |done..].
  intros k v Hk. by eapply lookup_weaken.
Qed.

(** X4. Default construction returns what the constructor returned: for a
    key with neither a cache entry nor a provider, the value [construct]
    returns is the result of the last call logged, [new key(...args)]; that
    call did not throw, [args] are, in order, the values now cached under the
    keys that [key] declares, and the value is now cached under [key]. *)
Theorem default_construction_returns_constructor_result fuel key s v s' :
  instances (this s) !! key = None →
  providers (this s) !! key = None →
  construct fuel key s = Some (Normal v, s') →
  ∃ body args,
    constructor_of key = Some body ∧
    body args = Normal tt ∧
    last (trace s') = Some (ENew key args (Normal v)) ∧
    Forall2 (λ d w, instances (this s') !! d = Some w) (declared key) args ∧
    instances (this s') !! key = Some v.
Proof.
  intros Hv Hp H%construct_eval.
  inversion H as [|k s0 v0 s0' _ Hb|]; simplify_eq.
  inversion Hb as [k s0 fn r s0' Hp' Hc|
                  |
                  |k s0 keys s1 vs s2 r s0' _ Hk Hl Hi]; simplify_eq.
  apply keys_of_Normal in Hk as [-> Hs1].
  assert (instances (this s2) !! key = None) as Hv2.
  { eapply eval_list_keeps_uncached; [| |done..];
      by destruct Hs1 as [->| ->]. }
  apply eval_list_Normal_cached in Hl.
  apply instantiate_inv in Hi as [(_&?&_)|[(body&?&?&?&->)|(?&?&_&_&?&_)]];
    simplify_eq.
  exists body, vs. split_and!.
  - done.
  - done.
  - simpl. apply last_snoc.
  - simpl. eapply Forall2_impl; [done|].
    intros d w Hd. simpl in Hd. rewrite lookup_insert_ne; [done|].
    intros ->. congruence.
  - simpl. by rewrite lookup_insert_eq.
Qed.

(** X6. Termination: when the declared dependencies form an acyclic graph
    ([rank] decreases along every declared dependency), [construct(key)]
    comes back, with a value or an exception, after at most [rank key]
    nested calls, from every state; more fuel gives the same outcome. *)
Theorem acyclic_terminates rank fuel key s :
  acyclic rank →
  rank key < fuel →
  ∃ r s', ∀ fuel', fuel ≤ fuel' → construct fuel' key s = Some (r, s').
Proof.
  intros Hrank Hlt.
  destruct (construct_total rank Hrank fuel key s Hlt) as [[r s'] H].
  exists r, s'. intros fuel' Hle. by eapply construct_fuel_mono.
Qed.

(** X8. A key that cannot be constructed: for a key with no cache entry, no
    provider, no [dependencies] and no constructor ([null], [undefined], a
    string, a symbol, a plain object, an instance), [construct] throws a
    [ConstructionError] that names the key and whose cause is a [TypeError];
    no host code is called and both maps are left as they were. *)
Theorem unconstructible_key fuel key s :
  instances (this s) !! key = None →
  providers (this s) !! key = None →
  dependencies_of key = None →
  constructor_of key = None →
  ∃ message s',
    construct (S fuel) key s = Some (Throw (VLoc (S (length (heap s)))), s') ∧
    heap s' = heap s ++
      [HTypeError message;
       HConstructionError
         (ConstructionError_message (heap s ++ [HTypeError message]) key)
         (VLoc (length (heap s)))] ∧
    this s' = this s ∧
    trace s' = trace s.
Proof.
  intros Hv Hp Hd Hc.
  rewrite construct_S_default by done.
  unfold try_catch, constructViaDependencies, get_dependencies, new.
  rewrite Hc.
  destruct key; simpl in Hd;
    cbv [bind ret throw gets modify alloc log this_add throw_TypeError
         call_dependencies new_ConstructionError]; simpl;
    try rewrite Hd; simpl;
    (do 2 eexists; split_and!; [by rewrite length_app, Nat.add_1_r| |done..];
     simpl; by rewrite <-app_assoc).
Qed.

(** X9. A provider registered too late is never used: once [construct(key)]
    has returned a value, [provide(key, fn)] changes nothing for [key]; every
    later [construct(key)] still returns the cached value, and leaves the
    state, hence the call log, as it is. *)
Theorem late_provider_is_ignored fuel key s v s1 fn :
  construct fuel key s = Some (Normal v, s1) →
  let s2 := {| this := provide key fn (this s1);
               heap := heap s1; trace := trace s1 |} in
  ∀ fuel', construct (S fuel') key s2 = Some (Normal v, s2).
Proof.
  intros H%construct_eval%eval_Normal_cached s2 fuel'.
  by apply construct_S_cached.
Qed.

(** X10. Registration is last-write-wins per key and independent across
    keys and across the two maps: a second [add] or [provide] for a key
    replaces the first, and registrations for different keys, or an [add] and
    a [provide], give the same container in either order. *)
Theorem registration_last_write_wins (c : DIContainer) :
  (∀ key v1 v2, add key v2 (add key v1 c) = add key v2 c) ∧
  (∀ key f1 f2, provide key f2 (provide key f1 c) = provide key f2 c) ∧
  (∀ k1 k2 v1 v2, k1 ≠ k2 →
     add k1 v1 (add k2 v2 c) = add k2 v2 (add k1 v1 c)) ∧
  (∀ k1 k2 f1 f2, k1 ≠ k2 →
     provide k1 f1 (provide k2 f2 c) = provide k2 f2 (provide k1 f1 c)) ∧
  (∀ k1 k2 v f, add k1 v (provide k2 f c) = provide k2 f (add k1 v c)).
Proof.
  unfold add, provide. split_and!; intros; simpl; f_equal;
    first [apply insert_insert_eq|by apply insert_insert_ne|done].
Qed.

(** ** Constructors receive what the cache holds *)

Lemma wired_mono n s s' :
  trace s' = trace s → instances (this s) ⊆ instances (this s') →
  wired n s → wired n s'.
Proof.
  intros Ht Hi Hs p args res. rewrite Ht. intros Hin.
  eapply Forall2_impl; [exact (Hs _ _ _ Hin)|].
  intros d v Hd. simpl in Hd. by eapply lookup_weaken.
Qed.

Lemma wired_record n ev s :
  (∀ p args res, ev = ENew p args res →
     Forall2 (λ d v, instances (this s) !! d = Some v) (declared p) args) →
  wired n s → wired n (record ev s).
Proof.
  intros Hev Hs p args res Hin. simpl in *.
  rewrite drop_app in Hin.
  apply elem_of_app in Hin as [Hin|Hin]; [exact (Hs _ _ _ Hin)|].
  apply elem_of_drop_singleton in Hin. symmetry in Hin. by eapply Hev.
Qed.

Lemma eval_wired_all n :
  (∀ object s r s', eval object s r s' → wired n s → wired n s') ∧
  (∀ object s r s', eval_body object s r s' →
     instances (this s) !! object = None → wired n s → wired n s') ∧
  (∀ keys s r s', eval_list keys s r s' → wired n s → wired n s').
Proof.
  apply eval_mutind.
  - done.
  - auto.
  - intros k s e s' Hv _ IH Hs. eapply wired_mono; [..|by apply IH]; done.
  - intros k s fn r s' Hp H Hv Hs.
    apply (constructViaProvider_inv _ _ _ _ _ Hp) in H
      as [(v&Hfn&->&->)|(e&Hfn&->&->)].
    + eapply (wired_mono _ (record (ECallProvider k fn) s)); [done| |].
      * simpl. by apply insert_subseteq.
      * by apply wired_record.
    + by apply wired_record.
  - intros k s e s' _ H _ Hs.
    apply keys_of_inv in H as [[_ [[??]|(_&_&->)]]|(?&_&->&_)];
      simplify_eq; [by eapply wired_mono|by apply wired_record].
  - intros k s keys s1 e s' _ H _ IH _ Hs. apply IH.
    apply keys_of_Normal in H as [_ [->| ->]]; [done|by apply wired_record].
  - intros k s keys s1 vs s2 r s' Hp H Hl IH Hi Hv Hs.
    apply keys_of_Normal in H as [-> Hs1].
    assert (instances (this s2) !! k = None) as Hv2.
    { eapply eval_list_keeps_uncached; [| |done..];
        by destruct Hs1 as [->| ->]. }
    assert (wired n s2) as Hs2.
    { apply IH. destruct Hs1 as [->| ->]; [done|by apply wired_record]. }
    apply eval_list_Normal_cached in Hl.
    apply instantiate_inv in Hi as [(_&_&->)|[(?&_&_&_&->)|(?&?&_&_&_&->)]].
    + by eapply wired_mono.
    + eapply (wired_mono _ (record _ (push _ s2))); [done| |].
      * simpl. by apply insert_subseteq.
      * apply wired_record; [|by eapply wired_mono].
        by intros p args res [= <- <- _].
    + apply wired_record; [|done]. by intros p args res [= <- <- _].
  - done.
  - auto.
  - auto.
  - auto.
Qed.

(** X3. Singletons are shared: every constructor that a call of [construct]
    calls, at whatever depth, receives for each key its class declares, in
    the declared order, the value that the cache holds under that key when
    [construct] is done; a later [construct] of a declared key returns the
    value the constructor was given. *)
Theorem constructors_receive_cached_values fuel key s r s' :
  construct fuel key s = Some (r, s') →
  ∀ p args res, ENew p args res ∈ new_events s s' →
    Forall2 (λ d v,
               instances (this s') !! d = Some v ∧
               ∀ fuel', construct (S fuel') d s' = Some (Normal v, s'))
      (declared p) args.
Proof.
  intros H%construct_eval p args res Hin.
  eapply Forall2_impl.
  - eapply (proj1 (eval_wired_all (length (trace s))) _ _ _ _ H); [|done].
    intros ???. rewrite drop_all. by intros ?%elem_of_nil.
  - intros d v Hd. split; [done|]. intros fuel'. by apply construct_S_cached.
Qed.

(** ** [construct] stays within the dependencies of its key *)

Lemma within_same root before n s s' :
  trace s' = trace s → instances (this s') = instances (this s) →
  within root before n s → within root before n s'.
Proof. unfold within. by intros -> ->. Qed.

Lemma within_record root before n ev s :
  rtc depends root (event_key ev) →
  within root before n s → within root before n (record ev s).
Proof.
  intros Hev [Hc Ht]. split; [done|]. simpl. by apply Forall_drop_snoc.
Qed.

Lemma within_cache root before n key value s :
  rtc depends root key →
  within root before n s → within root before n (cache key value s).
Proof.
  intros Hkey [Hc Ht]. split; [|done]. intros j. simpl.
  destruct (decide (key = j)) as [->|Hne]; [by right|].
  rewrite lookup_insert_ne by done. apply Hc.
Qed.

Lemma eval_within_all root before n :
  (∀ object s r s', eval object s r s' →
     rtc depends root object →
     within root before n s → within root before n s') ∧
  (∀ object s r s', eval_body object s r s' →
     rtc depends root object →
     within root before n s → within root before n s') ∧
  (∀ keys s r s', eval_list keys s r s' →
     (∀ d, d ∈ keys → rtc depends root d) →
     within root before n s → within root before n s').
Proof.
  apply eval_mutind.
  - done.
  - auto.
  - intros k s e s' _ _ IH Hk Hs. eapply within_same; [..|by apply IH]; done.
  - intros k s fn r s' Hp H Hk Hs.
    apply (constructViaProvider_inv _ _ _ _ _ Hp) in H
      as [(v&Hfn&->&->)|(e&Hfn&->&->)].
    + apply within_cache; [done|]. by apply within_record.
    + by apply within_record.
  - intros k s e s' _ H Hk Hs.
    apply keys_of_inv in H as [[_ [[??]|(_&_&->)]]|(?&_&->&_)];
      simplify_eq; [by eapply within_same|by apply within_record].
  - intros k s keys s1 e s' _ H _ IH Hk Hs.
    apply keys_of_Normal in H as [-> Hs1]. apply IH.
    + intros d Hd. by eapply rtc_r.
    + destruct Hs1 as [->| ->]; [done|by apply within_record].
  - intros k s keys s1 vs s2 r s' _ H _ IH Hi Hk Hs.
    apply keys_of_Normal in H as [-> Hs1].
    assert (within root before n s2) as Hs2.
    { apply IH.
      - intros d Hd. by eapply rtc_r.
      - destruct Hs1 as [->| ->]; [done|by apply within_record]. }
    apply instantiate_inv in Hi as [(_&_&->)|[(?&_&_&_&->)|(?&?&_&_&_&->)]].
    + by eapply within_same.
    + apply within_cache; [done|]. apply within_record; [done|].
      by eapply within_same.
    + by apply within_record.
  - done.
  - intros x xs s e s' _ IH Hk Hs. apply IH; [|done]. apply Hk. by constructor.
  - intros x xs s y s1 e s' _ IHx _ IH Hk Hs. apply IH.
    + intros d Hd. apply Hk. by constructor.
    + apply IHx; [|done]. apply Hk. by constructor.
  - intros x xs s y s1 ys s' _ IHx _ IH Hk Hs. apply IH.
    + intros d Hd. apply Hk. by constructor.
    + apply IHx; [|done]. apply Hk. by constructor.
Qed.

(** X5. [construct(key)] touches nothing outside the dependencies of [key]:
    every cache entry it leaves was there before or belongs to a key that
    [key] reaches along declared dependencies, and every provider,
    [dependencies] method and constructor it calls belongs to such a key. *)
Theorem construct_stays_within_dependencies fuel key s r s' :
  construct fuel key s = Some (r, s') →
  (∀ j, is_Some (instances (this s') !! j) →
     is_Some (instances (this s) !! j) ∨ rtc depends key j) ∧
  (∀ ev, ev ∈ new_events s s' → rtc depends key (event_key ev)).
Proof.
  intros H%construct_eval.
  destruct (proj1 (eval_within_all key (instances (this s))
              (length (trace s))) _ _ _ _ H) as [Hc Ht].
  - done.
  - split; [by left|]. rewrite drop_all. constructor.
  - split; [done|]. intros ev Hin. rewrite Forall_forall in Ht. by apply Ht.
Qed.

(** ** Dependency cycles *)




(** ** A provider replaces default construction *)

Lemma count_zero p t : (∀ ev, ev ∈ t → p ev = false) → count p t = 0.
Proof.
  induction t as [|ev t IH]; intros Hp; [done|].
  change (ev :: t) with ([ev] ++ t). rewrite count_app, IH.
  - unfold count. rewrite filter_cons_False; [done|].
    rewrite (Hp ev); [done|by constructor].
  - intros ev' Hin. apply Hp. by constructor.
Qed.

Lemma eval_provided_all key fn n :
  let inv s :=
    providers (this s) !! key = Some fn ∧
    Forall (λ ev, event_key ev = key → ev = ECallProvider key fn)
      (drop n (trace s)) in
  (∀ object s r s', eval object s r s' → inv s → inv s') ∧
  (∀ object s r s', eval_body object s r s' → inv s → inv s') ∧
  (∀ keys s r s', eval_list keys s r s' → inv s → inv s').
Proof.
  intros inv. subst inv. apply eval_mutind.
  - done.
  - auto.
  - intros k s e s' _ _ IH Hs. by apply IH.
  - intros k s fn' r s' Hp H [Hkey Ht].
    assert (event_key (ECallProvider k fn') = key →
            ECallProvider k fn' = ECallProvider key fn) as Hev.
    { simpl. intros ->. congruence. }
    apply (constructViaProvider_inv _ _ _ _ _ Hp) in H
      as [(v&Hfn&->&->)|(e&Hfn&->&->)]; simpl;
      (split; [done|by apply Forall_drop_snoc]).
  - intros k s e s' Hp H [Hkey Ht].
    apply keys_of_inv in H as [[_ [[??]|(_&_&->)]]|(?&_&->&_)];
      simplify_eq; [done|]. simpl. split; [done|].
    apply Forall_drop_snoc; [done|]. simpl. intros ->. congruence.
  - intros k s keys s1 e s' Hp H _ IH [Hkey Ht]. apply IH.
    apply keys_of_Normal in H as [_ [->| ->]]; [done|]. simpl.
    split; [done|]. apply Forall_drop_snoc; [done|]. simpl. intros ->. congruence.
  - intros k s keys s1 vs s2 r s' Hp H _ IH Hi [Hkey Ht].
    assert (k ≠ key) as Hne by (intros ->; congruence).
    destruct IH as [Hkey2 Ht2].
    { apply keys_of_Normal in H as [_ [->| ->]]; [done|]. simpl.
      split; [done|]. by apply Forall_drop_snoc. }
    apply instantiate_inv in Hi as [(_&_&->)|[(?&_&_&_&->)|(?&?&_&_&_&->)]];
      simpl; [done|split; [done|by apply Forall_drop_snoc]..].
  - done.
  - auto.
  - auto.
  - auto.
Qed.

(** X11. A provider replaces default construction: while [key] has a
    provider, no call of [construct], for [key] or for a key that depends on
    it, calls the constructor or the [dependencies] method of [key]; the only
    call made for [key] is the call of its provider. *)
Theorem provider_replaces_default_construction fuel key fn object s r s' :
  providers (this s) !! key = Some fn →
  construct fuel object s = Some (r, s') →
  (∀ ev, ev ∈ new_events s s' → event_key ev = key →
     ev = ECallProvider key fn) ∧
  count (is_new key) (new_events s s') = 0.
Proof.
  intros Hp H%construct_eval.
  destruct (proj1 (eval_provided_all key fn (length (trace s))) _ _ _ _ H)
    as [_ Ht].
  { split; [done|]. rewrite drop_all. constructor. }
  rewrite Forall_forall in Ht. split; [done|].
  apply count_zero. intros ev Hin. specialize (Ht ev Hin).
  destruct ev as [| |o args res]; try done. simpl.
  apply bool_decide_eq_false. intros ->. by specialize (Ht eq_refl).
Qed.

(** ** The first version and the current one *)

Lemma construct_v1_S fuel object s :
  instances (this s) !! object = None →
  construct_v1 (S fuel) object s =
    try_catch (constructViaDependencies (construct_v1 fuel) object)
      (λ e, let! err := new_ConstructionError_v1 object e in throw err) s.
Proof.
  intros Hv. cbn [construct_v1]. unfold try_catch, bind at 1, gets at 1.
  by rewrite bool_decide_eq_false_2 by (rewrite Hv; by intros [??]).
Qed.

Lemma construct_v1_S_cached fuel object s v :
  instances (this s) !! object = Some v →
  construct_v1 (S fuel) object s = Some (Normal v, s).
Proof.
  intros Hv. cbn [construct_v1]. unfold try_catch, bind, gets. simpl.
  rewrite bool_decide_eq_true_2 by eauto. by rewrite Hv.
Qed.

Lemma agree_refl {A} (run : option (Completion A * State)) : agree run run.
Proof. by destruct run as [[r s]|]. Qed.

Lemma array_map_agree f1 f2 keys s :
  (∀ k s, providers (this s) = ∅ → agree (f1 k s) (f2 k s)) →
  (∀ k s v s', f2 k s = Some (Normal v, s') →
     providers (this s') = providers (this s)) →
  providers (this s) = ∅ →
  agree (array_map f1 keys s) (array_map f2 keys s).
Proof.
  intros Hf Hframe. revert s. induction keys as [|k keys IH]; intros s Hp.
  { apply agree_refl. }
  cbn [array_map]. unfold bind at 1 3. specialize (Hf k s Hp).
  destruct (f1 k s) as [[r1 s1]|], (f2 k s) as [[r2 s2]|] eqn:H2; try done.
  destruct Hf as (<- & Hthis & Htrace & Hlen & Heq).
  destruct r1 as [y|e]; [|done].
  specialize (Heq eq_refl) as ->.
  assert (providers (this s2) = ∅) as Hp2 by (by rewrite (Hframe _ _ _ _ H2)).
  specialize (IH s2 Hp2). unfold bind.
  destruct (array_map f1 keys s2) as [[r3 s3]|],
    (array_map f2 keys s2) as [[r4 s4]|]; try done.
  destruct IH as (<- & Hthis' & Htrace' & Hlen' & Heq').
  destruct r3 as [ys|e]; [|done]. by specialize (Heq' eq_refl) as ->.
Qed.

Lemma construct_v1_agrees fuel key s :
  providers (this s) = ∅ →
  agree (construct_v1 fuel key s) (construct fuel key s).
Proof.
  revert key s. induction fuel as [|fuel IH]; intros key s Hp; [done|].
  destruct (instances (this s) !! key) as [v|] eqn:Hv.
  { rewrite (construct_v1_S_cached _ _ _ v), (construct_S_cached _ _ _ v)
      by done. done. }
  rewrite construct_v1_S, construct_S_default by (done || by rewrite Hp).
  unfold try_catch. rewrite !constructViaDependencies_split.
  unfold bind at 1 4.
  destruct (keys_of key s) as [[[keys|e] s1]|] eqn:Hk; [| |done].
  - assert (providers (this s1) = ∅) as Hp1.
    { apply keys_of_extends in Hk as [-> _]. done. }
    assert (agree (array_map (construct_v1 fuel) keys s1)
                  (array_map (construct fuel) keys s1)) as Hl.
    { apply array_map_agree; [done| |done].
      by intros ???? [-> _]%construct_eval%eval_extends. }
    unfold bind at 1 3.
    destruct (array_map (construct_v1 fuel) keys s1) as [[r1 s2]|],
      (array_map (construct fuel) keys s1) as [[r2 s3]|]; try done.
    destruct Hl as (<- & Hthis & Htrace & Hlen & Heq).
    destruct r1 as [vs|e].
    + specialize (Heq eq_refl) as ->.
      destruct (instantiate key vs s3) as [[[v|e] s4]|]; [done| |done].
      rewrite rethrow_Some. destruct key; simpl; by rewrite ?length_app.
    + rewrite rethrow_Some.
      destruct key; simpl; rewrite ?length_app, ?Hlen; done.
  - rewrite rethrow_Some. destruct key; simpl; by rewrite ?length_app.
Qed.

(** X12. Upgrading from the first version changes no resolution: on a
    container without providers the current [construct] and the first
    version's [construct] return the same value and end in the same state,
    or throw an error at the same address and leave the same cache, the same
    call log and a heap of the same size, or both never come back.  Only the
    error objects can differ. *)
Theorem first_version_agrees fuel key s :
  providers (this s) = ∅ →
  match construct_v1 fuel key s, construct fuel key s with
  | None, None => True
  | Some (r1, s1), Some (r2, s2) =>
      r1 = r2 ∧ this s1 = this s2 ∧ trace s1 = trace s2 ∧
      length (heap s1) = length (heap s2) ∧
      (∀ v, r1 = Normal v → s1 = s2)
  | _, _ => False
  end.
Proof.
  intros Hp. pose proof (construct_v1_agrees fuel key s Hp) as H.
  unfold agree in H.
  destruct (construct_v1 fuel key s) as [[r1 s1]|],
    (construct fuel key s) as [[r2 s2]|]; try done.
  destruct H as (? & ? & ? & ? & Heq). split_and!; try done.
  intros v ->. by apply Heq.
Qed.

(** X13. The first version on a key that cannot be constructed: for a key
    with no cache entry, no [dependencies] and no constructor, the first
    version's [construct] calls no host code and leaves the cache as it was;
    for [null] and [undefined] it throws a bare [TypeError] (building the
    [ConstructionError] fails, and the cause is lost); for any other key it
    throws a [ConstructionError] whose message ends in the key's [name], or
    in ["undefined"] when the key has none. *)
Theorem first_version_unconstructible_key fuel key s :
  instances (this s) !! key = None →
  dependencies_of key = None →
  constructor_of key = None →
  ∃ message err s',
    construct_v1 (S fuel) key s
      = Some (Throw (VLoc (S (length (heap s)))), s') ∧
    heap s' = heap s ++ [HTypeError message; err] ∧
    this s' = this s ∧
    trace s' = trace s ∧
    (key = VNull ∨ key = VUndefined → ∃ message', err = HTypeError message') ∧
    (key ≠ VNull → key ≠ VUndefined →
       err = HConstructionError
               ("Error constructing " +:+
                  default "undefined"
                    (get_name (heap s ++ [HTypeError message]) key))
               (VLoc (length (heap s)))).
Proof.
  intros Hv Hd Hc. rewrite construct_v1_S by done.
  unfold try_catch, constructViaDependencies, get_dependencies, new.
  rewrite Hc.
  destruct key; simpl in Hd;
    cbv [bind ret throw gets modify alloc log this_add throw_TypeError
         call_dependencies new_ConstructionError_v1]; simpl;
    try rewrite Hd; simpl;
    (do 3 eexists; split_and!;
       [by rewrite length_app, Nat.add_1_r
       |simpl; by rewrite <-app_assoc
       |done
       |done
       |intros [?|?]; by eauto
       |intros ??; try done]).
  all: by destruct (get_name _ _).
Qed.

(** ** Registered values *)

(** X15. A registered value is injected: while [key] is cached with value
    [v], every constructor that a call of [construct] calls receives [v] at
    each position where its class declares [key]. *)
Theorem registered_value_is_injected fuel key v object s r s' :
  instances (this s) !! key = Some v →
  construct fuel object s = Some (r, s') →
  ∀ p args res, ENew p args res ∈ new_events s s' →
    ∀ i, declared p !! i = Some key → args !! i = Some v.
Proof.
  intros Hv H p args res Hin i Hi.
  pose proof (construct_eval _ _ _ _ _ H) as He.
  assert (wired (length (trace s)) s') as Hw.
  { eapply (proj1 (eval_wired_all (length (trace s)))); [done|].
    intros ???. rewrite drop_all. by intros ?%elem_of_nil. }
  destruct (Forall2_lookup_l _ _ _ _ _ (Hw _ _ _ Hin) Hi) as (w & Hw' & Hc).
  rewrite Hw'. f_equal.
  pose proof (lookup_weaken _ _ _ _ Hv (eval_cache_mono _ _ _ _ He)).
  congruence.
Qed.

End Container.

(** * The claims on the test classes of src/index.test.ts *)

(** The test classes form an acyclic graph, so [construct] returns on them
    with three units of fuel, whatever the state. *)
Lemma test_objects_acyclic : acyclic test_objects test_rank.
Proof.
  intros key d Hd. unfold declared, dependencies_of in Hd.
  destruct key as [| | | | |id|]; try (by apply elem_of_nil in Hd).
  do 7 (destruct id as [|id]; [simpl in Hd;
    repeat (apply elem_of_cons in Hd as [->|Hd]; [simpl; lia|]);
    by apply elem_of_nil in Hd|]).
  simpl in Hd. by apply elem_of_nil in Hd.
Qed.

Lemma construct_test_objects_total key s :
  is_Some (construct test_objects 3 key s).
Proof.
  apply (construct_total test_objects test_rank test_objects_acyclic).
  destruct key as [| | | | |id|]; simpl; try lia.
  do 6 (destruct id as [|id]; [lia|]). lia.
Qed.

(** 'creates an instance of a class without dependencies', twice. *)
Lemma singleton_caching_witness :
  dependencies_of test_objects NoDependencies = None ∧
  constructor_of test_objects NoDependencies = Some (λ _, Normal tt) ∧
  ∃ s1,
    construct test_objects 1 NoDependencies (start new_DIContainer)
      = Some (Normal (VLoc 0), s1) ∧
    heap s1 = [HInstance NoDependencies []] ∧
    count (is_new NoDependencies) (trace s1) = 1 ∧
    construct test_objects 1 NoDependencies s1 = Some (Normal (VLoc 0), s1).
Proof.
  split; [reflexivity|]. split; [reflexivity|].
  destruct (singleton_caching test_objects NoDependencies (λ _, Normal tt)
              [] [] 0 0) as (s1 & H1 & _ & H2 & H3 & _ & H4).
  - left. reflexivity.
  - reflexivity.
  - reflexivity.
  - exists s1. split; [exact H1|]. split; [exact H2|].
    split; [exact H3|exact H4].
Defined.

(** 'creates an instance of a class with defaults and dependencies': the
    constructor receives the instances of [NoDependencies] and [HasDefaults],
    in that order. *)
Lemma dependency_order_witness :
  ∃ r s',
    construct test_objects 2 DefaultsAndDependencies (start new_DIContainer)
      = Some (r, s') ∧
    r = Normal (VLoc 2) ∧
    heap s' = [HInstance NoDependencies []; HInstance HasDefaults [];
               HInstance DefaultsAndDependencies [VLoc 0; VLoc 1]] ∧
    last (trace s') =
      Some (ENew DefaultsAndDependencies [VLoc 0; VLoc 1] (Normal (VLoc 2))).
Proof.
  destruct (dependency_order test_objects 1 DefaultsAndDependencies
              [NoDependencies; HasDefaults] (λ _, Normal tt)
              (start new_DIContainer)) as (Hthere & _ & _);
    [vm_compute; reflexivity..|].
  destruct (Hthere [VLoc 0; VLoc 1]
    {| this := add HasDefaults (VLoc 1)
                 (add NoDependencies (VLoc 0) new_DIContainer);
       heap := [HInstance NoDependencies []; HInstance HasDefaults []];
       trace := [ECallDependencies DefaultsAndDependencies;
                 ENew NoDependencies [] (Normal (VLoc 0));
                 ECallDependencies HasDefaults;
                 ENew HasDefaults [] (Normal (VLoc 1))] |})
    as (r & s' & Hrun & Htrace & Hok).
  - apply resolves_array_map. vm_compute. reflexivity.
  - destruct (Hok eq_refl) as (Hr & Hheap & _).
    exists r, s'. split; [exact Hrun|]. split; [exact Hr|].
    split; [exact Hheap|]. rewrite Htrace. reflexivity.
Defined.

(** C4 as stated does not hold for every key and provider: a provider that
    throws is called by every [construct] and nothing is cached; a key that
    is cached already never reaches its provider. *)
Lemma provider_semantics_counterexample :
  (let s := start (provide RequestRandomNumber failing_provider
                     new_DIContainer) in
   let s1 := raised test_objects RequestRandomNumber boom
               (record (ECallProvider RequestRandomNumber failing_provider) s) in
   let s2 := raised test_objects RequestRandomNumber boom
               (record (ECallProvider RequestRandomNumber failing_provider) s1) in
   construct test_objects 1 RequestRandomNumber s = Some (Throw (VLoc 0), s1) ∧
   construct test_objects 1 RequestRandomNumber s1 = Some (Throw (VLoc 1), s2) ∧
   instances (this s2) !! RequestRandomNumber = None ∧
   count (is_provided RequestRandomNumber failing_provider) (trace s2) = 2 ∧
   ¬ count (is_provided RequestRandomNumber failing_provider) (trace s2) ≤ 1) ∧
  (let s := start (provide RequestRandomNumber hello_provider
                     (add RequestRandomNumber (VStr "registered")
                        new_DIContainer)) in
   construct test_objects 1 RequestRandomNumber s
     = Some (Normal (VStr "registered"), s) ∧
   fn_call hello_provider ≠ Normal (VStr "registered") ∧
   count (is_provided RequestRandomNumber hello_provider) (trace s) = 0).
Proof.
  split.
  - split; [vm_compute; reflexivity|].
    split; [vm_compute; reflexivity|]. split; [vm_compute; reflexivity|].
    split; [vm_compute; reflexivity|]. vm_compute. lia.
  - split; [vm_compute; reflexivity|].
    split; [discriminate|vm_compute; reflexivity].
Qed.

(** 'overrides default construction with a provider', and a provider that
    throws. *)
Lemma provider_semantics_witness :
  instances new_DIContainer !! NoDependencies = None ∧
  fn_call hello_provider = Normal (VStr "hello, world") ∧
  fn_call failing_provider = Throw boom ∧
  let s := start (provide NoDependencies hello_provider new_DIContainer) in
  (∃ s1, construct test_objects 1 NoDependencies s
           = Some (Normal (VStr "hello, world"), s1) ∧
         construct test_objects 1 NoDependencies s1
           = Some (Normal (VStr "hello, world"), s1)) ∧
  construct test_objects 2 DefaultsAndDependencies s
    = Some (Normal (VLoc 1), after_override) ∧
  ENew DefaultsAndDependencies [VStr "hello, world"; VLoc 0] (Normal (VLoc 1))
    ∈ new_events s after_override ∧
  [VStr "hello, world"; VLoc 0] !! 0 = Some (VStr "hello, world") ∧
  ∃ s1 s2,
    construct test_objects 1 NoDependencies
      (start (provide NoDependencies failing_provider new_DIContainer))
      = Some (Throw (VLoc 0), s1) ∧
    construct test_objects 1 NoDependencies s1 = Some (Throw (VLoc 1), s2) ∧
    count (is_provided NoDependencies failing_provider) (trace s2) = 2.
Proof.
  split; [vm_compute; reflexivity|]. split; [reflexivity|].
  split; [reflexivity|]. intros s.
  assert (instances new_DIContainer !! NoDependencies = None) as Hfree
    by (vm_compute; reflexivity).
  destruct (provider_semantics test_objects NoDependencies hello_provider
              new_DIContainer [] [] 0) as (Hreturns & _ & _).
  destruct (Hreturns (VStr "hello, world") Hfree eq_refl)
    as (H1 & _ & _ & H2 & Hs & _ & H3).
  destruct (provider_semantics test_objects NoDependencies failing_provider
              new_DIContainer [] [] 0) as (_ & Hthrows & _).
  destruct (Hthrows boom Hfree eq_refl) as (H4 & _ & _ & H5 & H6).
  assert (construct test_objects 2 DefaultsAndDependencies s
            = Some (Normal (VLoc 1), after_override)) as Hrun
    by (vm_compute; reflexivity).
  assert (ENew DefaultsAndDependencies [VStr "hello, world"; VLoc 0]
            (Normal (VLoc 1)) ∈ new_events s after_override) as Hin
    by (apply list_elem_of_In; vm_compute; tauto).
  split; [eexists; split; [exact H1|exact (H2 0)]|].
  split; [exact Hrun|]. split; [exact Hin|].
  split; [exact (H3 s 2 DefaultsAndDependencies _ _ Hs Hrun _ _ Hin 0 eq_refl)|].
  do 2 eexists. split; [exact H4|]. split; [exact (H5 0)|exact H6].
Defined.

(** A dependency graph in which [NoDependencies] occurs twice, resolved
    twice, a failed call in between, and a later request for
    [NoDependencies]. *)
Lemma at_most_once_default_construction_witness :
  run test_objects 3
    [CallConstruct DefaultsAndDependencies; CallConstruct NeedsBroken;
     CallConstruct DefaultsAndDependencies; CallConstruct NoDependencies]
    (start new_DIContainer) = Some after_four_calls ∧
  (∀ key, count (is_built key) (trace after_four_calls) ≤ 1) ∧
  count (is_built NoDependencies) (trace after_four_calls) = 1.
Proof.
  assert (run test_objects 3
    [CallConstruct DefaultsAndDependencies; CallConstruct NeedsBroken;
     CallConstruct DefaultsAndDependencies; CallConstruct NoDependencies]
    (start new_DIContainer) = Some after_four_calls) as Hrun
    by (vm_compute; reflexivity).
  split; [exact Hrun|]. split; [|vm_compute; reflexivity].
  exact (proj1 (at_most_once_default_construction test_objects) 3 _ _ Hrun).
Defined.

(** [Top] needs [NeedsBroken], which needs [Broken], whose constructor
    throws [boom]: three wrappers, outermost last, one failing call. *)
Lemma nested_error_wrapping_witness :
  construct test_objects 3 Top (start new_DIContainer)
    = Some (Throw (VLoc 3), after_Top) ∧
  (∃ a, VLoc 3 = VLoc a ∧ length (heap after_Top) = S a ∧
     raised_for test_objects (heap after_Top) ∅
       (new_events (start new_DIContainer) after_Top) 0 Top (VLoc 3)) ∧
  count (is_failure test_objects) (trace after_Top) +
    count_objects is_TypeError (heap after_Top) = 1.
Proof.
  assert (construct test_objects 3 Top (start new_DIContainer)
            = Some (Throw (VLoc 3), after_Top)) as Hrun
    by (vm_compute; reflexivity).
  split; [exact Hrun|]. split.
  - exact (proj1 (nested_error_wrapping test_objects 3 Top _ _ _ Hrun)
             (VLoc 3) eq_refl).
  - exact (proj1 (proj2 (proj2
             (nested_error_wrapping test_objects 3 Top _ _ _ Hrun)))
             (VLoc 3) eq_refl).
Defined.

(** 'creates an error with cause'. *)
Lemma error_message_format_witness :
  NoDependencies ≠ VNull ∧ NoDependencies ≠ VUndefined ∧
  get_name test_objects [] NoDependencies = Some "NoDependencies" ∧
  reference test_objects [] NoDependencies = "NoDependencies" ∧
  ConstructionError_message test_objects [] NoDependencies
    = "Error constructing NoDependencies" ∧
  reference test_objects [] (VObj 7) = "[object Object]".
Proof.
  destruct (error_message_format test_objects NoDependencies boom
              (start new_DIContainer)) as (_ & _ & _ & _ & Hname & _).
  destruct (error_message_format test_objects (VObj 7) boom
              (start new_DIContainer)) as (_ & _ & _ & _ & _ & _ & Hplain & _).
  split; [discriminate|]. split; [discriminate|].
  split; [vm_compute; reflexivity|].
  split; [|split; [vm_compute; reflexivity|]].
  - apply Hname; [discriminate|discriminate|vm_compute; reflexivity].
  - apply (Hplain 7); vm_compute; reflexivity.
Defined.

(** The registry after 'overrides default construction with a provider'. *)
Lemma frame_property_witness :
  construct test_objects 2 DefaultsAndDependencies
    (start (provide NoDependencies hello_provider new_DIContainer))
    = Some (Normal (VLoc 1), after_override) ∧
  providers (this after_override) =
    providers (provide NoDependencies hello_provider new_DIContainer).
Proof.
  assert (construct test_objects 2 DefaultsAndDependencies
    (start (provide NoDependencies hello_provider new_DIContainer))
    = Some (Normal (VLoc 1), after_override)) as Hrun
    by (vm_compute; reflexivity).
  split; [exact Hrun|].
  exact (proj1 (frame_property test_objects) 2 _ _ _ _ Hrun).
Defined.

(** [NeedsBroken] fails after [NoDependencies] was built: the instance stays
    cached, [NeedsBroken] does not. *)
Lemma no_rollback_on_failure_witness :
  construct test_objects 2 NeedsBroken (start new_DIContainer)
    = Some (Throw (VLoc 2), after_NeedsBroken) ∧
  instances (this after_NeedsBroken) !! NeedsBroken = None ∧
  instances (this (start new_DIContainer)) !! NoDependencies = None ∧
  instances (this after_NeedsBroken) !! NoDependencies = Some (VLoc 0) ∧
  construct test_objects 1 NoDependencies after_NeedsBroken
    = Some (Normal (VLoc 0), after_NeedsBroken).
Proof.
  assert (construct test_objects 2 NeedsBroken (start new_DIContainer)
            = Some (Throw (VLoc 2), after_NeedsBroken)) as Hrun
    by (vm_compute; reflexivity).
  destruct (no_rollback_on_failure test_objects 2 NeedsBroken _ _ _ Hrun)
    as (Hkey & _ & _ & Hkept).
  destruct (Hkept (ENew NoDependencies [] (Normal (VLoc 0)))
              NoDependencies (VLoc 0)) as (Hbefore & Hafter & Hserved).
  - apply list_elem_of_In. vm_compute. tauto.
  - split; reflexivity.
  - split; [exact Hrun|]. split; [exact Hkey|]. split; [exact Hbefore|].
    split; [exact Hafter|exact (Hserved 0)].
Defined.

(** A provider that returns [undefined]. *)
Lemma undefined_provider_result_cached_witness :
  let s := start (provide RequestRandomNumber undefined_provider
                    new_DIContainer) in
  instances (this s) !! RequestRandomNumber = None ∧
  providers (this s) !! RequestRandomNumber = Some undefined_provider ∧
  fn_call undefined_provider = Normal VUndefined ∧
  ∃ s1,
    construct test_objects 1 RequestRandomNumber s = Some (Normal VUndefined, s1) ∧
    instances (this s1) !! RequestRandomNumber = Some VUndefined ∧
    count (is_provided RequestRandomNumber undefined_provider) (trace s1) = 1 ∧
    construct test_objects 1 RequestRandomNumber s1 = Some (Normal VUndefined, s1).
Proof.
  intros s. split; [vm_compute; reflexivity|].
  split; [vm_compute; reflexivity|]. split; [reflexivity|].
  destruct (undefined_provider_result_cached test_objects RequestRandomNumber
              undefined_provider s 0) as (H1 & H2 & H3 & H4);
    [vm_compute; reflexivity..|].
  eexists. split; [exact H1|]. split; [exact H2|].
  split; [exact H3|exact (H4 0)].
Defined.

(** * The further properties on the test classes *)

Lemma resolved_key_is_singleton_witness :
  construct test_objects 2 DefaultsAndDependencies (start new_DIContainer)
    = Some (Normal (VLoc 2), after_DefaultsAndDependencies) ∧
  instances (this after_DefaultsAndDependencies) !! DefaultsAndDependencies
    = Some (VLoc 2) ∧
  construct test_objects 1 DefaultsAndDependencies after_DefaultsAndDependencies
    = Some (Normal (VLoc 2), after_DefaultsAndDependencies).
Proof.
  assert (construct test_objects 2 DefaultsAndDependencies
            (start new_DIContainer)
          = Some (Normal (VLoc 2), after_DefaultsAndDependencies)) as Hrun
    by (vm_compute; reflexivity).
  destruct (resolved_key_is_singleton test_objects _ _ _ _ _ Hrun) as [H1 H2].
  split; [exact Hrun|]. split; [exact H1|exact (H2 0)].
Defined.

(** A failed [construct(NeedsBroken)] on a container that holds three
    instances. *)
Lemma construct_only_grows_witness :
  construct test_objects 2 NeedsBroken after_DefaultsAndDependencies
    = Some (Throw (VLoc 4), after_four_calls) ∧
  instances (this after_DefaultsAndDependencies)
    ⊆ instances (this after_four_calls) ∧
  heap after_DefaultsAndDependencies `prefix_of` heap after_four_calls ∧
  trace after_DefaultsAndDependencies `prefix_of` trace after_four_calls.
Proof.
  assert (construct test_objects 2 NeedsBroken after_DefaultsAndDependencies
          = Some (Throw (VLoc 4), after_four_calls)) as Hrun
    by (vm_compute; reflexivity).
  destruct (construct_only_grows test_objects _ _ _ _ _ Hrun)
    as (H1 & _ & H2 & H3).
  split; [exact Hrun|]. split; [exact H1|]. split; [exact H2|exact H3].
Defined.

Lemma constructors_receive_cached_values_witness :
  construct test_objects 2 DefaultsAndDependencies (start new_DIContainer)
    = Some (Normal (VLoc 2), after_DefaultsAndDependencies) ∧
  ENew DefaultsAndDependencies [VLoc 0; VLoc 1] (Normal (VLoc 2))
    ∈ new_events (start new_DIContainer) after_DefaultsAndDependencies ∧
  Forall2 (λ d v,
             instances (this after_DefaultsAndDependencies) !! d = Some v ∧
             ∀ fuel', construct test_objects (S fuel') d
                        after_DefaultsAndDependencies
                      = Some (Normal v, after_DefaultsAndDependencies))
    (declared test_objects DefaultsAndDependencies) [VLoc 0; VLoc 1].
Proof.
  assert (construct test_objects 2 DefaultsAndDependencies
            (start new_DIContainer)
          = Some (Normal (VLoc 2), after_DefaultsAndDependencies)) as Hrun
    by (vm_compute; reflexivity).
  assert (ENew DefaultsAndDependencies [VLoc 0; VLoc 1] (Normal (VLoc 2))
            ∈ new_events (start new_DIContainer) after_DefaultsAndDependencies)
    as Hin by (apply list_elem_of_In; vm_compute; tauto).
  split; [exact Hrun|]. split; [exact Hin|].
  exact (constructors_receive_cached_values test_objects _ _ _ _ _ Hrun
           _ _ _ Hin).
Defined.

Lemma default_construction_returns_constructor_result_witness :
  instances (this (start new_DIContainer)) !! DefaultsAndDependencies = None ∧
  providers (this (start new_DIContainer)) !! DefaultsAndDependencies = None ∧
  construct test_objects 2 DefaultsAndDependencies (start new_DIContainer)
    = Some (Normal (VLoc 2), after_DefaultsAndDependencies) ∧
  ∃ body args,
    constructor_of test_objects DefaultsAndDependencies = Some body ∧
    body args = Normal tt ∧
    last (trace after_DefaultsAndDependencies)
      = Some (ENew DefaultsAndDependencies args (Normal (VLoc 2))) ∧
    Forall2 (λ d w, instances (this after_DefaultsAndDependencies) !! d = Some w)
      (declared test_objects DefaultsAndDependencies) args ∧
    instances (this after_DefaultsAndDependencies) !! DefaultsAndDependencies
      = Some (VLoc 2).
Proof.
  assert (construct test_objects 2 DefaultsAndDependencies
            (start new_DIContainer)
          = Some (Normal (VLoc 2), after_DefaultsAndDependencies)) as Hrun
    by (vm_compute; reflexivity).
  split; [vm_compute; reflexivity|]. split; [vm_compute; reflexivity|].
  split; [exact Hrun|].
  apply (default_construction_returns_constructor_result test_objects 2
           DefaultsAndDependencies (start new_DIContainer) (VLoc 2)
           after_DefaultsAndDependencies);
    [vm_compute; reflexivity|vm_compute; reflexivity|exact Hrun].
Defined.

Lemma construct_stays_within_dependencies_witness :
  construct test_objects 2 NeedsBroken after_DefaultsAndDependencies
    = Some (Throw (VLoc 4), after_four_calls) ∧
  (∀ j, is_Some (instances (this after_four_calls) !! j) →
     is_Some (instances (this after_DefaultsAndDependencies) !! j) ∨
     rtc (depends test_objects) NeedsBroken j) ∧
  (∀ ev, ev ∈ new_events after_DefaultsAndDependencies after_four_calls →
     rtc (depends test_objects) NeedsBroken (event_key ev)).
Proof.
  assert (construct test_objects 2 NeedsBroken after_DefaultsAndDependencies
          = Some (Throw (VLoc 4), after_four_calls)) as Hrun
    by (vm_compute; reflexivity).
  split; [exact Hrun|].
  exact (construct_stays_within_dependencies test_objects _ _ _ _ _ Hrun).
Defined.

Lemma acyclic_terminates_witness :
  acyclic test_objects test_rank ∧
  test_rank Top < 3 ∧
  ∃ r s', ∀ fuel', 3 ≤ fuel' →
    construct test_objects fuel' Top (start new_DIContainer) = Some (r, s').
Proof.
  split; [exact test_objects_acyclic|]. split; [simpl; lia|].
  apply (acyclic_terminates test_objects test_rank 3 Top
           (start new_DIContainer) test_objects_acyclic).
  simpl. lia.
Defined.


(** [construct(Symbol())] without a provider. *)
Lemma unconstructible_key_witness :
  ∃ message s',
    construct test_objects 1 RequestRandomNumber (start new_DIContainer)
      = Some (Throw (VLoc 1), s') ∧
    heap s' =
      [HTypeError message;
       HConstructionError
         (ConstructionError_message test_objects [HTypeError message]
            RequestRandomNumber)
         (VLoc 0)] ∧
    this s' = new_DIContainer ∧
    trace s' = [].
Proof.
  apply (unconstructible_key test_objects 0 RequestRandomNumber
           (start new_DIContainer)); vm_compute; reflexivity.
Defined.

Lemma late_provider_is_ignored_witness :
  ∃ s1,
    construct test_objects 1 NoDependencies (start new_DIContainer)
      = Some (Normal (VLoc 0), s1) ∧
    let s2 := {| this := provide NoDependencies hello_provider (this s1);
                 heap := heap s1; trace := trace s1 |} in
    construct test_objects 1 NoDependencies s2 = Some (Normal (VLoc 0), s2).
Proof.
  exists {| this := add NoDependencies (VLoc 0) new_DIContainer;
            heap := [HInstance NoDependencies []];
            trace := [ENew NoDependencies [] (Normal (VLoc 0))] |}.
  assert (construct test_objects 1 NoDependencies (start new_DIContainer)
          = Some (Normal (VLoc 0),
                  {| this := add NoDependencies (VLoc 0) new_DIContainer;
                     heap := [HInstance NoDependencies []];
                     trace := [ENew NoDependencies [] (Normal (VLoc 0))] |}))
    as Hrun by (vm_compute; reflexivity).
  split; [exact Hrun|].
  exact (late_provider_is_ignored test_objects _ _ _ _ _ hello_provider Hrun 0).
Defined.

Lemma registration_last_write_wins_witness :
  NoDependencies ≠ HasDefaults ∧
  add NoDependencies (VStr "a") (add HasDefaults (VStr "b") new_DIContainer)
    = add HasDefaults (VStr "b") (add NoDependencies (VStr "a") new_DIContainer) ∧
  provide NoDependencies hello_provider
    (provide NoDependencies failing_provider new_DIContainer)
    = provide NoDependencies hello_provider new_DIContainer.
Proof.
  destruct (registration_last_write_wins new_DIContainer)
    as (_ & Hp & Ha & _).
  split; [discriminate|]. split.
  - apply Ha. discriminate.
  - apply Hp.
Defined.

(** 'overrides default construction with a provider': the constructor of
    [NoDependencies] is not called. *)
Lemma provider_replaces_default_construction_witness :
  let s := start (provide NoDependencies hello_provider new_DIContainer) in
  providers (this s) !! NoDependencies = Some hello_provider ∧
  construct test_objects 2 DefaultsAndDependencies s
    = Some (Normal (VLoc 1), after_override) ∧
  count (is_new NoDependencies) (new_events s after_override) = 0.
Proof.
  intros s.
  assert (providers (this s) !! NoDependencies = Some hello_provider) as Hp
    by (vm_compute; reflexivity).
  assert (construct test_objects 2 DefaultsAndDependencies s
          = Some (Normal (VLoc 1), after_override)) as Hrun
    by (vm_compute; reflexivity).
  split; [exact Hp|]. split; [exact Hrun|].
  exact (proj2 (provider_replaces_default_construction test_objects _ _ _ _ _
                  _ _ Hp Hrun)).
Defined.

Lemma first_version_agrees_witness :
  providers (this (start new_DIContainer)) = ∅ ∧
  construct_v1 test_objects 3 Top (start new_DIContainer)
    = Some (Throw (VLoc 3), after_Top) ∧
  construct test_objects 3 Top (start new_DIContainer)
    = Some (Throw (VLoc 3), after_Top) ∧
  match construct_v1 test_objects 3 Top (start new_DIContainer),
        construct test_objects 3 Top (start new_DIContainer) with
  | None, None => True
  | Some (r1, s1), Some (r2, s2) =>
      r1 = r2 ∧ this s1 = this s2 ∧ trace s1 = trace s2 ∧
      length (heap s1) = length (heap s2) ∧
      (∀ v, r1 = Normal v → s1 = s2)
  | _, _ => False
  end.
Proof.
  split; [reflexivity|]. split; [vm_compute; reflexivity|].
  split; [vm_compute; reflexivity|].
  exact (first_version_agrees test_objects 3 Top (start new_DIContainer)
           eq_refl).
Defined.

(** The first version's [construct(null)]. *)
Lemma first_version_unconstructible_key_witness :
  ∃ message err s',
    construct_v1 test_objects 1 VNull (start new_DIContainer)
      = Some (Throw (VLoc 1), s') ∧
    heap s' = [HTypeError message; err] ∧
    ∃ message', err = HTypeError message'.
Proof.
  destruct (first_version_unconstructible_key test_objects 0 VNull
              (start new_DIContainer))
    as (message & err & s' & H1 & H2 & _ & _ & H3 & _);
    [vm_compute; reflexivity..|].
  exists message, err, s'. split; [exact H1|]. split; [exact H2|].
  apply H3. left. reflexivity.
Defined.

(** [add(NoDependencies, 'registered')], then
    [construct(DefaultsAndDependencies)]. *)
Lemma registered_value_is_injected_witness :
  let s := start (add NoDependencies (VStr "registered") new_DIContainer) in
  let s' := {| this := add DefaultsAndDependencies (VLoc 1)
                         (add HasDefaults (VLoc 0) (this s));
               heap := [HInstance HasDefaults [];
                        HInstance DefaultsAndDependencies
                          [VStr "registered"; VLoc 0]];
               trace := [ECallDependencies DefaultsAndDependencies;
                         ECallDependencies HasDefaults;
                         ENew HasDefaults [] (Normal (VLoc 0));
                         ENew DefaultsAndDependencies
                           [VStr "registered"; VLoc 0] (Normal (VLoc 1))] |} in
  instances (this s) !! NoDependencies = Some (VStr "registered") ∧
  construct test_objects 2 DefaultsAndDependencies s
    = Some (Normal (VLoc 1), s') ∧
  ENew DefaultsAndDependencies [VStr "registered"; VLoc 0] (Normal (VLoc 1))
    ∈ new_events s s' ∧
  [VStr "registered"; VLoc 0] !! 0 = Some (VStr "registered").
Proof.
  intros s s'.
  assert (instances (this s) !! NoDependencies = Some (VStr "registered"))
    as Hv by (vm_compute; reflexivity).
  assert (construct test_objects 2 DefaultsAndDependencies s
          = Some (Normal (VLoc 1), s')) as Hrun by (vm_compute; reflexivity).
  assert (ENew DefaultsAndDependencies [VStr "registered"; VLoc 0]
            (Normal (VLoc 1)) ∈ new_events s s') as Hin
    by (apply list_elem_of_In; vm_compute; tauto).
  split; [exact Hv|]. split; [exact Hrun|]. split; [exact Hin|].
  exact (registered_value_is_injected test_objects _ _ _ _ _ _ _ Hv Hrun
           _ _ _ Hin 0 eq_refl).
Defined.
